(** * Arithmetic in a prime field: [primeFieldElement.py]

    A shallow embedding of the class [PrimeFieldElement] and the properties
    of its operators.

    - Python integers are unbounded, so they are [Z].  Python's [%] and [//]
      round towards minus infinity and take the sign of the divisor, which is
      what [Z.modulo] and [Z.div] do for a divisor different from zero; for a
      zero divisor Python raises, which [py_mod] writes out.
    - An instance is the record of its two attributes.  The class defines no
      [__eq__]: two instances are compared here as the pairs [(a, p)].
    - A raised exception is the [Raise] case of [result].  It carries the
      class of the exception and the message the source formats.
    - The second operand of an operator is an integer or an instance
      ([operand]), which is what the [isinstance] tests tell apart.
    - The three recursive methods are defined by well-founded recursion, so
      they are total functions: a call always returns or raises.  The
      interpreter's recursion limit is not modelled. *)

From Stdlib Require Import ZArith Zdivisibility Lia String Bool DecimalString Wellfounded.
From Stdlib Require Import Zmod.ZmodInv DecimalZ DecimalPos.
From Equations Require Import Equations.

Open Scope string_scope.
Open Scope Z_scope.

(** ** Exceptions and the error monad *)

(** The three exception classes the module raises, each with its message. *)
Inductive exn : Type :=
| ValueError (msg : string)
| TypeError (msg : string)
| ZeroDivisionError (msg : string).

Inductive result (A : Type) : Type :=
| Ok (v : A)
| Raise (e : exn).

Arguments Ok {A} v.
Arguments Raise {A} e.

Definition bind {A B : Type} (m : result A) (k : A -> result B) : result B :=
  match m with
  | Ok v => k v
  | Raise e => Raise e
  end.

Notation "x <- m ;; k" := (bind m (fun x => k))
  (at level 61, m at next level, right associativity).

(** The class of an exception, which is what an [except] clause selects on. *)
Inductive exn_class : Type := ValueErrorC | TypeErrorC | ZeroDivisionErrorC.

Definition class_of (e : exn) : exn_class :=
  match e with
  | ValueError _ => ValueErrorC
  | TypeError _ => TypeErrorC
  | ZeroDivisionError _ => ZeroDivisionErrorC
  end.

(** What a caller observes of a call when it does not read the message. *)
Definition outcome {A : Type} (r : result A) : A + exn_class :=
  match r with
  | Ok v => inl v
  | Raise e => inr (class_of e)
  end.

(** Python's rendering of an integer inside an f-string. *)
Definition str (z : Z) : string := NilZero.string_of_int (Z.to_int z).

(** Python's [x % m] on integers; the message is the interpreter's. *)
Definition py_mod (x m : Z) : result Z :=
  if m =? 0 then Raise (ZeroDivisionError "integer modulo by zero")
  else Ok (x mod m).

(** ** The class *)

Record PrimeFieldElement : Type := FieldElement { a : Z; p : Z }.

(** The second operand of an operator: what [isinstance(other, int)] tells
    apart. *)
Inductive operand : Type :=
| Int (n : Z)
| Elem (e : PrimeFieldElement).

(** [__init__]: the checked constructor, [PrimeFieldElement(a, p)] and
    [self.__class__(a, p)]. *)
Definition init (a p : Z) : result PrimeFieldElement :=
  if (a >=? p) || (a <? 0) then
    Raise (ValueError ("Invalid " ++ str a ++ " for PrimeField of " ++ str p))
  else Ok (FieldElement a p).

(** [__add__] *)
Definition add (self : PrimeFieldElement) (other : operand)
  : result PrimeFieldElement :=
  match other with
  | Int other =>
      r <- py_mod (a self + other) (p self) ;;
      init r (p self)
  | Elem other =>
      if negb (p self =? p other) then
        Raise (TypeError ("Cannot add two numbers in different PrimeFields "
                          ++ str (p self) ++ " and " ++ str (p other)))
      else
        r <- py_mod (a self + a other) (p self) ;;
        init r (p self)
  end.

(** [__sub__] *)
Definition sub (self : PrimeFieldElement) (other : operand)
  : result PrimeFieldElement :=
  match other with
  | Int other =>
      r <- py_mod (a self - other) (p self) ;;
      init r (p self)
  | Elem other =>
      if negb (p self =? p other) then
        Raise (TypeError ("Cannot subtract two numbers in different PrimeFields "
                          ++ str (p self) ++ " and " ++ str (p other)))
      else
        r <- py_mod (a self - a other) (p self) ;;
        init r (p self)
  end.

(** [__mul__] *)
Definition mul (self : PrimeFieldElement) (other : operand)
  : result PrimeFieldElement :=
  match other with
  | Int other =>
      r <- py_mod (a self * other) (p self) ;;
      init r (p self)
  | Elem other =>
      if negb (p self =? p other) then
        Raise (TypeError ("Cannot multiply two numbers in different PrimeFields "
                          ++ str (p self) ++ " and " ++ str (p other)))
      else
        r <- py_mod (a self * a other) (p self) ;;
        init r (p self)
  end.

(** [__gcdExtended]: the recursion is on [(b % a, a)], and [|b % a| < |a|]
    whatever the signs, so the function is total on the integers. *)
Equations? gcdExtended (a b : Z) : Z * Z * Z by wf (Z.abs_nat a) lt :=
  gcdExtended a b with Z.eq_dec a 0 => {
    | left _ := (b, 0, 1);
    | right _ :=
        let '(gcd, x1, y1) := gcdExtended (b mod a) a in
        let x := y1 - (b / a) * x1 in
        let y := x1 in
        (gcd, x, y) }.
Proof.
  match goal with
  | Hne : ?d <> 0 |- _ =>
      pose proof (Z.mod_pos_bound b d); pose proof (Z.mod_neg_bound b d)
  end.
  lia.
Qed.

(** [inverse] *)
Definition inverse (self : PrimeFieldElement) : result PrimeFieldElement :=
  let '(gcd, x, y) := gcdExtended (a self) (p self) in
  if gcd =? p self then
    Raise (ValueError (str (a self) ++ " does not have an inverse in k"))
  else if gcd =? 1 then
    r <- py_mod x (p self) ;;
    init r (p self)
  else
    Raise (ValueError "The Euclidean algorithm didn't work with this element").

(** [__truediv__]: an integer divisor in range is wrapped and the operator
    applied again, to an element this time. *)
Definition operand_rank (other : operand) : nat :=
  match other with
  | Int _ => 1
  | Elem _ => 0
  end.

Equations truediv (self : PrimeFieldElement) (other : operand)
  : result PrimeFieldElement by wf (operand_rank other) lt :=
  truediv self (Int other) :=
    if (other >=? p self) || (other <? 0) then
      Raise (ValueError ("Invalid division for PrimeField of " ++ str (p self)
                         ++ ": division by " ++ str other))
    else
      wrapped <- init other (p self) ;;
      truediv self (Elem wrapped);
  truediv self (Elem other) :=
    if negb (p self =? p other) then
      Raise (TypeError ("Cannot divide two numbers in different PrimeFields "
                        ++ str (p self) ++ " and " ++ str (p other)))
    else if a other =? 0 then
      Raise (ZeroDivisionError ("Cannot divide by zero in PrimeField "
                                ++ str (p self)))
    else
      inv <- inverse other ;;
      mul self (Elem inv).

(** [__pow__]: [exponent] is the [exp] of lines 108-111; a negative exponent
    makes one recursive call, on the inverse and the negated exponent. *)
Definition exponent (other : operand) : Z :=
  match other with
  | Elem other => a other
  | Int other => other
  end.

Definition pow_rank (other : operand) : nat :=
  if exponent other <? 0 then 1 else 0.

Equations? pow (self : PrimeFieldElement) (other : operand)
  : result PrimeFieldElement by wf (pow_rank other) lt :=
  pow self other with Z.eq_dec (exponent other) 0 => {
    | left _ := init 1 (p self);
    | right _ with Z_lt_dec (exponent other) 0 => {
        | left _ :=
            inv <- inverse self ;;
            pow inv (Int (exponent other * -1));
        | right _ :=
            result <- py_mod (a self ^ exponent other) (p self) ;;
            init result (p self) } }.
Proof.
  unfold pow_rank; cbn [exponent].
  destruct (Z.ltb_spec (exponent other * -1) 0), (Z.ltb_spec (exponent other) 0); lia.
Qed.

(** [__repr__] *)
Definition repr (self : PrimeFieldElement) : string := str (a self).

(** The representation invariant of a live instance. *)
Definition valid (x : PrimeFieldElement) : Prop := 0 <= a x < p x.

(** The gcd and the Bezout coefficient that [inverse] reads off the triple. *)
Definition egcd (x : PrimeFieldElement) : Z :=
  fst (fst (gcdExtended (a x) (p x))).

Definition bezout (x : PrimeFieldElement) : Z :=
  snd (fst (gcdExtended (a x) (p x))).

(** A call that does not raise [TypeError]. *)
Definition no_type_error {A : Type} (r : result A) : Prop :=
  forall msg, r <> Raise (TypeError msg).

(** A call that, when it returns, returns an element in range over the
    modulus of [x]. *)
Definition preserves (x : PrimeFieldElement)
  (res : result PrimeFieldElement) : Prop :=
  forall r, res = Ok r -> 0 <= a r < p r /\ p r = p x.

(** * Properties *)

Example ex_inverse_3_7 : inverse (FieldElement 3 7) = Ok (FieldElement 5 7).
Proof. reflexivity. Qed.

Example ex_pow_neg : pow (FieldElement 2 7) (Int (-1)) = Ok (FieldElement 4 7).
Proof. reflexivity. Qed.

Example ex_div_zero :
  truediv (FieldElement 5 7) (Elem (FieldElement 0 7))
  = Raise (ZeroDivisionError "Cannot divide by zero in PrimeField 7").
Proof. reflexivity. Qed.

(** ** Basic facts on the constructor and on [%] *)

Section Constructor.

Lemma init_ok (n m : Z) : 0 <= n < m -> init n m = Ok (FieldElement n m).
Proof.
  intros Hr. unfold init.
  destruct (Z.geb_spec n m), (Z.ltb_spec n 0); cbn; try lia. reflexivity.
Qed.

Lemma init_inv (n m : Z) (x : PrimeFieldElement) :
  init n m = Ok x -> x = FieldElement n m /\ 0 <= n < m.
Proof.
  unfold init.
  destruct (Z.geb_spec n m), (Z.ltb_spec n 0); cbn; try discriminate.
  intros [= <-]. split; [reflexivity | lia].
Qed.

Lemma init_raise (n m : Z) :
  n < 0 \/ n >= m ->
  init n m
  = Raise (ValueError ("Invalid " ++ str n ++ " for PrimeField of " ++ str m)).
Proof.
  intros Hr. unfold init.
  destruct (Z.geb_spec n m), (Z.ltb_spec n 0); cbn; try reflexivity. lia.
Qed.

Lemma py_mod_ok (x m : Z) : m <> 0 -> py_mod x m = Ok (x mod m).
Proof.
  intros Hm. unfold py_mod. destruct (Z.eqb_spec m 0); [contradiction | reflexivity].
Qed.

Lemma py_mod_inv (x m r : Z) : py_mod x m = Ok r -> m <> 0 /\ r = x mod m.
Proof.
  unfold py_mod. destruct (Z.eqb_spec m 0); [discriminate | ].
  intros [= <-]. split; [assumption | reflexivity].
Qed.

(** Reducing modulo a positive modulus and constructing never fails. *)
Lemma reduce_init (x m : Z) :
  0 < m -> (r <- py_mod x m ;; init r m) = Ok (FieldElement (x mod m) m).
Proof.
  intros Hm. rewrite py_mod_ok by lia. cbn.
  apply init_ok. apply Z.mod_pos_bound. exact Hm.
Qed.

(** Whatever is reduced and constructed, the outcome is in range. *)
Lemma reduce_init_inv (x m : Z) (r : PrimeFieldElement) :
  (r' <- py_mod x m ;; init r' m) = Ok r -> valid r /\ p r = m.
Proof.
  destruct (py_mod x m) as [v | e] eqn:Hmod; cbn; [ | discriminate].
  intros Hi. apply init_inv in Hi. destruct Hi as [-> Hr].
  split; [exact Hr | reflexivity].
Qed.

End Constructor.

(** ** The extended Euclidean algorithm *)

Section Euclid.

Lemma gcdExtended_base (b : Z) : gcdExtended 0 b = (b, 0, 1).
Proof. rewrite gcdExtended_equation_1. reflexivity. Qed.

Lemma gcdExtended_step (a b : Z) :
  a <> 0 ->
  gcdExtended a b
  = let '(gcd, x1, y1) := gcdExtended (b mod a) a in
    (gcd, y1 - (b / a) * x1, x1).
Proof.
  intros Ha. rewrite gcdExtended_equation_1.
  unfold gcdExtended_unfold_clause_1.
  destruct (Z.eq_dec a 0) as [Hz | Hnz]; [contradiction | ].
  destruct (gcdExtended (b mod a) a) as [[g x1] y1]. reflexivity.
Qed.

(** Induction along the recursive calls. *)
Lemma euclid_ind (P : Z -> Z -> Prop) :
  (forall b, P 0 b) ->
  (forall a b, a <> 0 -> P (b mod a) a -> P a b) ->
  forall a b, P a b.
Proof.
  intros Hbase Hstep a.
  induction a as [a IH] using (well_founded_induction
                                 (wf_inverse_image _ _ _ Z.abs_nat Nat.lt_wf_0)).
  intros b. destruct (Z.eq_dec a 0) as [-> | Hnz].
  - apply Hbase.
  - apply Hstep; [exact Hnz | ]. apply IH.
    pose proof (Z.mod_pos_bound b a); pose proof (Z.mod_neg_bound b a). lia.
Qed.

(** The Bezout identity, for all integers. *)
Lemma gcdExtended_bezout (a b : Z) :
  let '(gcd, x, y) := gcdExtended a b in gcd = a * x + b * y.
Proof.
  revert a b. apply euclid_ind.
  - intros b. rewrite gcdExtended_base. lia.
  - intros a b Hnz IH. rewrite gcdExtended_step by exact Hnz.
    destruct (gcdExtended (b mod a) a) as [[g x1] y1].
    pose proof (Z.div_mod b a Hnz). nia.
Qed.

(** The first component is a greatest common divisor, up to its sign, for
    all integers. *)
Lemma gcdExtended_abs_gcd (a b : Z) :
  Z.abs (fst (fst (gcdExtended a b))) = Z.gcd a b.
Proof.
  revert a b. apply euclid_ind.
  - intros b. rewrite gcdExtended_base. cbn [fst]. symmetry. apply Z.gcd_0_l.
  - intros a b Hnz IH. rewrite gcdExtended_step by exact Hnz.
    destruct (gcdExtended (b mod a) a) as [[g x1] y1]. cbn [fst] in *.
    rewrite IH. apply Z.gcd_mod. exact Hnz.
Qed.

(** On non-negative arguments it is the non-negative one. *)
Lemma gcdExtended_nonneg (a b : Z) :
  0 <= a -> 0 <= b -> 0 <= fst (fst (gcdExtended a b)).
Proof.
  revert a b. apply (euclid_ind (fun a b => 0 <= a -> 0 <= b -> 0 <= _)).
  - intros b _ Hb. rewrite gcdExtended_base. exact Hb.
  - intros a b Hnz IH Ha Hb. rewrite gcdExtended_step by exact Hnz.
    pose proof (Z.mod_pos_bound b a ltac:(lia)) as Hm.
    specialize (IH (proj1 Hm) Ha).
    destruct (gcdExtended (b mod a) a) as [[g x1] y1]. exact IH.
Qed.

Lemma gcdExtended_gcd (a b : Z) :
  0 <= a -> 0 <= b -> fst (fst (gcdExtended a b)) = Z.gcd a b.
Proof.
  intros Ha Hb. rewrite <- gcdExtended_abs_gcd.
  symmetry. apply Z.abs_eq. apply gcdExtended_nonneg; assumption.
Qed.

End Euclid.

(** ** The inverse *)

Section Inverse.

Lemma inverse_unfold (x : PrimeFieldElement) :
  inverse x
  = if egcd x =? p x then
      Raise (ValueError (str (a x) ++ " does not have an inverse in k"))
    else if egcd x =? 1 then
      r <- py_mod (bezout x) (p x) ;; init r (p x)
    else
      Raise (ValueError "The Euclidean algorithm didn't work with this element").
Proof.
  unfold inverse, egcd, bezout.
  destruct (gcdExtended (a x) (p x)) as [[g bx] by']. reflexivity.
Qed.

Lemma bezout_identity (x : PrimeFieldElement) :
  egcd x = a x * bezout x + p x * snd (gcdExtended (a x) (p x)).
Proof.
  pose proof (gcdExtended_bezout (a x) (p x)) as Hb.
  unfold egcd, bezout.
  destruct (gcdExtended (a x) (p x)) as [[g bx] by']. exact Hb.
Qed.

(** What a returned inverse tells. *)
Lemma inverse_inv (x r : PrimeFieldElement) :
  inverse x = Ok r ->
  egcd x = 1 /\ egcd x <> p x /\ valid r /\ p r = p x
  /\ a r = bezout x mod p x.
Proof.
  rewrite inverse_unfold.
  destruct (Z.eqb_spec (egcd x) (p x)) as [ | Hnp]; [discriminate | ].
  destruct (Z.eqb_spec (egcd x) 1) as [H1 | ]; [ | discriminate].
  intros Hr. pose proof (reduce_init_inv _ _ _ Hr) as [Hv Hp].
  destruct (py_mod (bezout x) (p x)) as [v | e] eqn:Hm; [ | discriminate].
  apply py_mod_inv in Hm. destruct Hm as [_ ->]. cbn in Hr.
  apply init_inv in Hr. destruct Hr as [Hr _].
  repeat split; try assumption; try (apply Hv).
  rewrite Hr. reflexivity.
Qed.

(** From here on [x] is a live instance. *)
Section Live.

Variable x : PrimeFieldElement.
Hypothesis Hv : valid x.

Lemma egcd_gcd : egcd x = Z.gcd (a x) (p x).
Proof.
  unfold valid in Hv. apply gcdExtended_gcd; lia.
Qed.

(** Within the range of a live instance, the gcd is the modulus for the
    zero residue only. *)
Lemma gcd_modulus_iff : Z.gcd (a x) (p x) = p x <-> a x = 0.
Proof.
  unfold valid in Hv. split.
  - intros Hg. destruct (Z.eq_dec (a x) 0) as [Hz | Hnz]; [exact Hz | ].
    pose proof (Z.gcd_divide_l (a x) (p x)) as Hd.
    apply Z.divide_pos_le in Hd; lia.
  - intros ->. rewrite Z.gcd_0_l. apply Z.abs_eq. lia.
Qed.

(** The zero of the field has no inverse. *)
Lemma inverse_zero :
  a x = 0 ->
  inverse x = Raise (ValueError (str (a x) ++ " does not have an inverse in k")).
Proof.
  intros Hz. rewrite inverse_unfold, egcd_gcd.
  rewrite (proj2 gcd_modulus_iff Hz), Z.eqb_refl. reflexivity.
Qed.

(** A unit has an inverse, and the product with it is one. *)
Lemma inverse_coprime :
  1 < p x -> Z.coprime (a x) (p x) ->
  inverse x = Ok (FieldElement (bezout x mod p x) (p x))
  /\ (a x * (bezout x mod p x)) mod p x = 1.
Proof.
  intros Hp1 Hco. pose proof Hv as Hr. unfold valid in Hr.
  pose proof egcd_gcd as Hg. unfold Z.coprime in Hco.
  rewrite Hco in Hg. split.
  - rewrite inverse_unfold, Hg.
    destruct (Z.eqb_spec 1 (p x)) as [H1 | _]; [lia | ].
    cbn. apply reduce_init. lia.
  - pose proof (bezout_identity x) as Hb. rewrite Hg in Hb.
    rewrite Z.mul_mod_idemp_r by lia.
    replace (a x * bezout x)
      with (1 + - snd (gcdExtended (a x) (p x)) * p x) by lia.
    rewrite Z.mod_add by lia. apply Z.mod_small. lia.
Qed.

(** Anything else has none: the call raises [ValueError]. *)
Lemma inverse_not_coprime :
  ~ Z.coprime (a x) (p x) ->
  exists msg, inverse x = Raise (ValueError msg).
Proof.
  intros Hnco. pose proof egcd_gcd as Hg. unfold Z.coprime in Hnco.
  rewrite inverse_unfold, Hg.
  destruct (Z.eqb_spec (Z.gcd (a x) (p x)) (p x)); [eexists; reflexivity | ].
  destruct (Z.eqb_spec (Z.gcd (a x) (p x)) 1); [contradiction | ].
  eexists; reflexivity.
Qed.

(** In a prime field every non-zero residue is a unit. *)
Lemma prime_coprime :
  a x <> 0 -> Z.prime (p x) -> Z.coprime (a x) (p x).
Proof.
  intros Hnz Hp. unfold valid in Hv. symmetry.
  apply Z.coprime_prime_small; [exact Hp | lia].
Qed.

End Live.

Lemma prime_7 : Z.prime 7.
Proof.
  split; [lia | ]. intros n Hn [k Hk].
  assert (n = 2 \/ n = 3 \/ n = 4 \/ n = 5 \/ n = 6) as Hc by lia.
  destruct Hc as [-> | [-> | [-> | [-> | ->]]]]; lia.
Qed.

End Inverse.

(** ** Construction *)

(** C4. For every pair of integers [(n, m)], construction succeeds if and
    only if [0 <= n < m]; a successful construction carries exactly the pair
    [(n, m)], with no reduction of [n] modulo [m]; construction fails exactly
    when [n < 0] or [n >= m], and then with the [ValueError] of line 18 (the
    spec's InvalidResidue). *)
Theorem init_contract (n m : Z) :
  (forall x, init n m = Ok x <-> 0 <= n < m /\ x = FieldElement n m)
  /\ (forall e, init n m = Raise e <->
        (n < 0 \/ n >= m)
        /\ e = ValueError ("Invalid " ++ str n ++ " for PrimeField of " ++ str m))
  /\ ((exists x, init n m = Ok x) <-> 0 <= n < m)
  /\ ((exists e, init n m = Raise e) <-> n < 0 \/ n >= m).
Proof.
  assert (Hok : forall x, init n m = Ok x <-> 0 <= n < m /\ x = FieldElement n m).
  { intros x. split.
    - intros Hi. apply init_inv in Hi. tauto.
    - intros [Hr ->]. apply init_ok. exact Hr. }
  assert (Hraise : forall e, init n m = Raise e <->
            (n < 0 \/ n >= m)
            /\ e = ValueError ("Invalid " ++ str n ++ " for PrimeField of " ++ str m)).
  { intros e. split.
    - intros Hi. destruct (Z_lt_dec n 0) as [Hneg | Hnn].
      + rewrite init_raise in Hi by lia. injection Hi as <-. split; [lia | reflexivity].
      + destruct (Z_ge_dec n m) as [Hge | Hlt].
        * rewrite init_raise in Hi by lia. injection Hi as <-. split; [lia | reflexivity].
        * rewrite init_ok in Hi by lia. discriminate.
    - intros [Hr ->]. apply init_raise. exact Hr. }
  split; [exact Hok | ]. split; [exact Hraise | ]. split; split.
  - intros [x Hx]. apply Hok in Hx. tauto.
  - intros Hr. exists (FieldElement n m). apply init_ok. exact Hr.
  - intros [e He]. apply Hraise in He. tauto.
  - intros Hr. eexists. apply init_raise. exact Hr.
Qed.

Example ex_init_no_reduction :
  init 9 7 = Raise (ValueError "Invalid 9 for PrimeField of 7")
  /\ init (-1) 7 = Raise (ValueError "Invalid -1 for PrimeField of 7")
  /\ init 0 0 = Raise (ValueError "Invalid 0 for PrimeField of 0").
Proof. repeat split. Qed.

(** ** The extended Euclidean helper *)

(** C2. For non-negative integers [a] and [b] (as [inverse] calls it: the
    residue and the modulus) the helper returns a triple [(gcd, x, y)] with
    [gcd = a * x + b * y] and [gcd] the greatest common divisor of [a] and
    [b]; it is computed by the base case [a = 0], which gives [(b, 0, 1)],
    and otherwise from the triple [(gcd, x1, y1)] of [(b mod a, a)], a call
    on a smaller first argument, as [(gcd, y1 - (b / a) * x1, x1)].
    [gcdExtended] is a total function, so every call returns. *)
Theorem gcdExtended_correct (a b : Z) (Ha : 0 <= a) (Hb : 0 <= b) :
  (exists gcd x y,
      gcdExtended a b = (gcd, x, y)
      /\ gcd = a * x + b * y
      /\ gcd = Z.gcd a b
      /\ (gcd | a) /\ (gcd | b)
      /\ (forall d, (d | a) -> (d | b) -> (d | gcd)))
  /\ (a = 0 -> gcdExtended a b = (b, 0, 1))
  /\ (a <> 0 ->
      0 <= b mod a < a
      /\ gcdExtended a b
         = let '(gcd, x1, y1) := gcdExtended (b mod a) a in
           (gcd, y1 - (b / a) * x1, x1)).
Proof.
  split; [ | split].
  - pose proof (gcdExtended_bezout a b) as Hbez.
    pose proof (gcdExtended_gcd a b Ha Hb) as Hg.
    destruct (gcdExtended a b) as [[g x] y]. cbn [fst] in Hg.
    exists g, x, y. split; [reflexivity | ]. split; [exact Hbez | ].
    split; [exact Hg | ]. rewrite Hg.
    split; [apply Z.gcd_divide_l | ]. split; [apply Z.gcd_divide_r | ].
    intros d Hda Hdb. apply Z.gcd_greatest; assumption.
  - intros ->. apply gcdExtended_base.
  - intros Hnz. split.
    + apply Z.mod_pos_bound. lia.
    + apply gcdExtended_step. exact Hnz.
Qed.

Lemma gcdExtended_correct_witness :
  (0 <= 3 /\ 0 <= 7)
  /\ exists gcd x y,
      gcdExtended 3 7 = (gcd, x, y)
      /\ gcd = 3 * x + 7 * y
      /\ gcd = Z.gcd 3 7
      /\ (gcd | 3) /\ (gcd | 7)
      /\ (forall d, (d | 3) -> (d | 7) -> (d | gcd)).
Proof.
  split.
  - split; lia.
  - apply (gcdExtended_correct 3 7); lia.
Defined.

Example ex_gcdExtended :
  gcdExtended 3 7 = (1, -2, 1) /\ gcdExtended 0 7 = (7, 0, 1)
  /\ gcdExtended 4 6 = (2, -1, 1).
Proof. repeat split. Qed.

(** ** Inverse law *)

(** C1. Over a prime modulus, for every element [x] with a non-zero residue,
    [inverse x] returns the Bezout coefficient of the residue reduced into
    [[0, p)], and the product of [x] with it is the element [1] of the
    field. *)
Theorem inverse_law (x : PrimeFieldElement)
  (Hv : valid x) (Hnz : a x <> 0) (Hp : Z.prime (p x)) :
  egcd x = 1
  /\ inverse x = Ok (FieldElement (bezout x mod p x) (p x))
  /\ 0 <= bezout x mod p x < p x
  /\ (i <- inverse x ;; mul x (Elem i)) = Ok (FieldElement 1 (p x))
  /\ init 1 (p x) = Ok (FieldElement 1 (p x)).
Proof.
  pose proof (prime_coprime x Hv Hnz Hp) as Hco.
  pose proof (Z.prime_ge_2 _ Hp) as Hp2.
  pose proof (inverse_coprime x Hv ltac:(lia) Hco) as [Hinv Hone].
  split; [rewrite egcd_gcd by exact Hv; exact Hco | ].
  split; [exact Hinv | ].
  split; [apply Z.mod_pos_bound; lia | ].
  split.
  - rewrite Hinv. cbn [bind mul p a].
    rewrite Z.eqb_refl. cbn [negb].
    rewrite reduce_init by lia. rewrite Hone. reflexivity.
  - apply init_ok. lia.
Qed.

Lemma inverse_law_witness :
  (valid (FieldElement 3 7) /\ a (FieldElement 3 7) <> 0
   /\ Z.prime (p (FieldElement 3 7)))
  /\ inverse (FieldElement 3 7) = Ok (FieldElement 5 7)
  /\ (i <- inverse (FieldElement 3 7) ;; mul (FieldElement 3 7) (Elem i))
     = Ok (FieldElement 1 7).
Proof.
  assert (Hv : valid (FieldElement 3 7)) by (unfold valid; cbn; lia).
  assert (Hnz : a (FieldElement 3 7) <> 0) by (cbn; lia).
  pose proof (inverse_law (FieldElement 3 7) Hv Hnz prime_7) as Hlaw.
  split; [split; [exact Hv | split; [exact Hnz | exact prime_7]] | ].
  split; [exact (proj1 (proj2 Hlaw)) | exact (proj1 (proj2 (proj2 (proj2 Hlaw))))].
Defined.

(** ** Error contract of [inverse] *)

(** C8. For a live instance [x]: the gcd that [inverse] tests is the modulus
    exactly when the residue is zero, and then [inverse] raises the
    [ValueError] of line 149 (the spec's NotInvertible); when the gcd is
    neither [1] nor the modulus -- which needs a modulus that is not prime and
    a non-zero residue sharing the factor [gcd > 1] with it -- [inverse]
    raises the [ValueError] of line 155 and returns nothing; [inverse] returns
    a value only when the gcd is [1]. *)
Theorem inverse_error_contract (x : PrimeFieldElement) (Hv : valid x) :
  egcd x = Z.gcd (a x) (p x)
  /\ (egcd x = p x <-> a x = 0)
  /\ (egcd x = p x ->
      inverse x
      = Raise (ValueError (str (a x) ++ " does not have an inverse in k")))
  /\ (egcd x <> 1 -> egcd x <> p x ->
      inverse x
      = Raise (ValueError "The Euclidean algorithm didn't work with this element")
      /\ ~ Z.prime (p x)
      /\ a x <> 0
      /\ 1 < egcd x < p x /\ (egcd x | a x) /\ (egcd x | p x))
  /\ (forall r, inverse x = Ok r -> egcd x = 1).
Proof.
  pose proof (egcd_gcd x Hv) as Hg.
  pose proof (gcd_modulus_iff x Hv) as Hiff. rewrite <- Hg in Hiff.
  split; [exact Hg | ]. split; [exact Hiff | ]. split; [ | split].
  - intros Hgp. rewrite inverse_unfold.
    destruct (Z.eqb_spec (egcd x) (p x)); [reflexivity | contradiction].
  - intros Hn1 Hnp.
    assert (Hnz : a x <> 0) by (intros Hz; apply Hnp, Hiff, Hz).
    pose proof (Z.gcd_divide_l (a x) (p x)) as Hda.
    pose proof (Z.gcd_divide_r (a x) (p x)) as Hdp.
    pose proof (Z.gcd_nonneg (a x) (p x)) as Hnn.
    rewrite <- Hg in Hda, Hdp, Hnn.
    unfold valid in Hv.
    assert (Hle : egcd x <= a x) by (apply Z.divide_pos_le; [lia | exact Hda]).
    assert (Hg0 : egcd x <> 0).
    { intros H0. rewrite H0 in Hda. apply Z.divide_0_l in Hda. contradiction. }
    split.
    { rewrite inverse_unfold.
      destruct (Z.eqb_spec (egcd x) (p x)); [contradiction | ].
      destruct (Z.eqb_spec (egcd x) 1); [contradiction | reflexivity]. }
    split.
    { intros [_ Hprime]. apply (Hprime (egcd x)); [lia | exact Hdp]. }
    split; [exact Hnz | ]. split; [lia | ]. split; assumption.
  - intros r Hr. apply inverse_inv in Hr. tauto.
Qed.

Lemma inverse_error_contract_witness :
  valid (FieldElement 2 4)
  /\ inverse (FieldElement 2 4)
     = Raise (ValueError "The Euclidean algorithm didn't work with this element")
  /\ ~ Z.prime 4.
Proof.
  assert (Hv : valid (FieldElement 2 4)) by (unfold valid; cbn; lia).
  pose proof (inverse_error_contract (FieldElement 2 4) Hv) as Hc.
  destruct Hc as (_ & _ & _ & Hother & _).
  assert (H1 : egcd (FieldElement 2 4) <> 1) by (vm_compute; discriminate).
  assert (Hp : egcd (FieldElement 2 4) <> p (FieldElement 2 4))
    by (vm_compute; discriminate).
  destruct (Hother H1 Hp) as (Hraise & Hnprime & _).
  split; [exact Hv | ]. split; [exact Hraise | exact Hnprime].
Defined.

Example ex_inverse_errors :
  inverse (FieldElement 0 7) = Raise (ValueError "0 does not have an inverse in k")
  /\ inverse (FieldElement 0 1) = Raise (ValueError "0 does not have an inverse in k")
  /\ inverse (FieldElement 4 6)
     = Raise (ValueError "The Euclidean algorithm didn't work with this element")
  /\ inverse (FieldElement 5 6) = Ok (FieldElement 5 6).
Proof. repeat split. Qed.

(** ** Error contract of the binary operators *)

Section BinaryErrors.

Lemma neq_negb_eqb (m k : Z) : m <> k -> negb (m =? k) = true.
Proof. intros Hne. destruct (Z.eqb_spec m k); [contradiction | reflexivity]. Qed.

Lemma eq_negb_eqb (m k : Z) : m = k -> negb (m =? k) = false.
Proof. intros ->. rewrite Z.eqb_refl. reflexivity. Qed.

Lemma out_of_range (n m : Z) : n < 0 \/ n >= m -> (n >=? m) || (n <? 0) = true.
Proof.
  intros Hr. destruct (Z.geb_spec n m), (Z.ltb_spec n 0); cbn; try reflexivity. lia.
Qed.

Lemma in_range (n m : Z) : 0 <= n < m -> (n >=? m) || (n <? 0) = false.
Proof.
  intros Hr. destruct (Z.geb_spec n m), (Z.ltb_spec n 0); cbn; try reflexivity; lia.
Qed.

End BinaryErrors.

(** C5. Each of [add], [sub], [mul] and [truediv] between two elements with
    different moduli raises its [TypeError] (the spec's FieldMismatch).
    [truediv] by an element of the same modulus with residue zero raises
    [ZeroDivisionError].  [truediv] by an integer [n] raises the [ValueError]
    of line 89 (InvalidResidue) when [n < 0] or [n >= p]; otherwise it is
    [truediv] by the element [(n, p)].  When none of these applies,
    [truediv x y] is [x * inverse y]. *)
Theorem binary_error_contract (x y : PrimeFieldElement) (n : Z) :
  (p x <> p y ->
     add x (Elem y)
     = Raise (TypeError ("Cannot add two numbers in different PrimeFields "
                         ++ str (p x) ++ " and " ++ str (p y)))
     /\ sub x (Elem y)
        = Raise (TypeError ("Cannot subtract two numbers in different PrimeFields "
                            ++ str (p x) ++ " and " ++ str (p y)))
     /\ mul x (Elem y)
        = Raise (TypeError ("Cannot multiply two numbers in different PrimeFields "
                            ++ str (p x) ++ " and " ++ str (p y)))
     /\ truediv x (Elem y)
        = Raise (TypeError ("Cannot divide two numbers in different PrimeFields "
                            ++ str (p x) ++ " and " ++ str (p y))))
  /\ (p x = p y -> a y = 0 ->
      truediv x (Elem y)
      = Raise (ZeroDivisionError ("Cannot divide by zero in PrimeField "
                                  ++ str (p x))))
  /\ (n < 0 \/ n >= p x ->
      truediv x (Int n)
      = Raise (ValueError ("Invalid division for PrimeField of " ++ str (p x)
                           ++ ": division by " ++ str n)))
  /\ (0 <= n < p x ->
      truediv x (Int n) = truediv x (Elem (FieldElement n (p x))))
  /\ (p x = p y -> a y <> 0 ->
      truediv x (Elem y) = (inv <- inverse y ;; mul x (Elem inv))).
Proof.
  split; [ | split; [ | split; [ | split]]].
  - intros Hne. rewrite truediv_equation_2. unfold add, sub, mul.
    rewrite (neq_negb_eqb _ _ Hne). repeat split.
  - intros Heq Hz. rewrite truediv_equation_2, (eq_negb_eqb _ _ Heq), Hz.
    reflexivity.
  - intros Hr. rewrite truediv_equation_1, (out_of_range _ _ Hr). reflexivity.
  - intros Hr. rewrite truediv_equation_1, (in_range _ _ Hr).
    rewrite (init_ok _ _ Hr). reflexivity.
  - intros Heq Hnz. rewrite truediv_equation_2, (eq_negb_eqb _ _ Heq).
    destruct (Z.eqb_spec (a y) 0); [contradiction | reflexivity].
Qed.

Example ex_binary_errors :
  add (FieldElement 5 7) (Elem (FieldElement 2 5))
  = Raise (TypeError "Cannot add two numbers in different PrimeFields 7 and 5")
  /\ truediv (FieldElement 5 7) (Elem (FieldElement 0 5))
     = Raise (TypeError "Cannot divide two numbers in different PrimeFields 7 and 5")
  /\ truediv (FieldElement 5 7) (Int 7)
     = Raise (ValueError "Invalid division for PrimeField of 7: division by 7")
  /\ truediv (FieldElement 5 7) (Int 0)
     = Raise (ZeroDivisionError "Cannot divide by zero in PrimeField 7")
  /\ truediv (FieldElement 5 7) (Int 3) = Ok (FieldElement 4 7).
Proof. repeat split. Qed.

(** ** Exponentiation *)

Section Power.

(** The body of [__pow__], read off the definition. *)
Lemma pow_body (self : PrimeFieldElement) (other : operand) :
  pow self other
  = let exp := exponent other in
    if exp =? 0 then init 1 (p self)
    else if exp <? 0 then
      inv <- inverse self ;; pow inv (Int (exp * -1))
    else
      result <- py_mod (a self ^ exp) (p self) ;; init result (p self).
Proof.
  rewrite pow_equation_1.
  unfold pow_unfold_clause_1, pow_unfold_clause_1_clause_2. cbv zeta.
  destruct (Z.eq_dec (exponent other) 0) as [Hz | Hnz].
  - rewrite Hz. reflexivity.
  - destruct (Z.eqb_spec (exponent other) 0) as [ | _]; [contradiction | ].
    destruct (Z_lt_dec (exponent other) 0) as [Hneg | Hpos];
      destruct (Z.ltb_spec (exponent other) 0); try lia; reflexivity.
Qed.

Lemma pow_zero (self : PrimeFieldElement) (other : operand) :
  exponent other = 0 -> pow self other = init 1 (p self).
Proof. intros Hz. rewrite pow_body. cbv zeta. rewrite Hz. reflexivity. Qed.

Lemma pow_pos (self : PrimeFieldElement) (other : operand) :
  0 < exponent other ->
  pow self other
  = (result <- py_mod (a self ^ exponent other) (p self) ;; init result (p self)).
Proof.
  intros Hpos. rewrite pow_body. cbv zeta.
  destruct (Z.eqb_spec (exponent other) 0); [lia | ].
  destruct (Z.ltb_spec (exponent other) 0); [lia | reflexivity].
Qed.

Lemma pow_neg (self : PrimeFieldElement) (other : operand) :
  exponent other < 0 ->
  pow self other
  = (inv <- inverse self ;; pow inv (Int (exponent other * -1))).
Proof.
  intros Hneg. rewrite pow_body. cbv zeta.
  destruct (Z.eqb_spec (exponent other) 0); [lia | ].
  destruct (Z.ltb_spec (exponent other) 0); [reflexivity | lia].
Qed.

(** [__pow__] reads its second operand through [exponent] only. *)
Lemma pow_exponent (self : PrimeFieldElement) (o1 o2 : operand) :
  exponent o1 = exponent o2 -> pow self o1 = pow self o2.
Proof.
  intros Heq. rewrite (pow_body self o1), (pow_body self o2).
  rewrite Heq. reflexivity.
Qed.

Lemma init_no_type_error (n m : Z) : no_type_error (init n m).
Proof.
  intros msg. unfold init. destruct ((n >=? m) || (n <? 0)); discriminate.
Qed.

Lemma reduce_no_type_error (v m : Z) :
  no_type_error (r <- py_mod v m ;; init r m).
Proof.
  intros msg. unfold py_mod. destruct (m =? 0); cbn; [discriminate | ].
  apply init_no_type_error.
Qed.

Lemma inverse_no_type_error (x : PrimeFieldElement) : no_type_error (inverse x).
Proof.
  intros msg. rewrite inverse_unfold.
  destruct (egcd x =? p x); [discriminate | ].
  destruct (egcd x =? 1); [ | discriminate].
  apply reduce_no_type_error.
Qed.

Lemma pow_no_type_error (x : PrimeFieldElement) (o : operand) :
  no_type_error (pow x o).
Proof.
  intros msg. rewrite pow_body. cbv zeta.
  destruct (exponent o =? 0); [apply init_no_type_error | ].
  destruct (Z.ltb_spec (exponent o) 0) as [Hneg | Hpos];
    [ | apply reduce_no_type_error].
  destruct (inverse x) as [inv | e] eqn:Hinv; cbn [bind].
  - rewrite pow_pos by (cbn [exponent]; lia). apply reduce_no_type_error.
  - intros [= ->]. exact (inverse_no_type_error x msg Hinv).
Qed.

End Power.

(** C6, as the code has it.  For every element [x] over a modulus greater
    than [1] -- every prime modulus is -- [pow x 0] is the element [1] over the
    same modulus, whatever the residue of [x], zero included; the exponent [0]
    may be the integer or an element of residue [0]. *)
Theorem pow_zero_identity (x e : PrimeFieldElement) (Hp : 1 < p x) :
  pow x (Int 0) = Ok (FieldElement 1 (p x))
  /\ (a e = 0 -> pow x (Elem e) = Ok (FieldElement 1 (p x)))
  /\ pow (FieldElement 0 (p x)) (Int 0) = Ok (FieldElement 1 (p x)).
Proof.
  split; [ | split].
  - rewrite pow_zero by reflexivity. apply init_ok. lia.
  - intros Hz. rewrite pow_zero by exact Hz. apply init_ok. lia.
  - rewrite pow_zero by reflexivity. apply init_ok. cbn. lia.
Qed.

Lemma pow_zero_identity_witness :
  1 < p (FieldElement 0 7)
  /\ pow (FieldElement 0 7) (Int 0) = Ok (FieldElement 1 7).
Proof.
  assert (Hp : 1 < p (FieldElement 0 7)) by (cbn; lia).
  split; [exact Hp | ].
  exact (proj1 (pow_zero_identity (FieldElement 0 7) (FieldElement 0 7) Hp)).
Defined.

(** C6, as stated, fails over the modulus [1]: [(0, 1)] is a live instance,
    and its power [0] is refused by the constructor, since the residue [1] is
    not below the modulus [1]. *)
Lemma pow_zero_modulus_one :
  init 0 1 = Ok (FieldElement 0 1)
  /\ pow (FieldElement 0 1) (Int 0)
     = Raise (ValueError "Invalid 1 for PrimeField of 1")
  /\ ~ (forall x, valid x -> pow x (Int 0) = Ok (FieldElement 1 (p x))).
Proof.
  split; [reflexivity | ]. split; [reflexivity | ].
  intros Hall.
  assert (Hv : valid (FieldElement 0 1)) by (unfold valid; cbn; lia).
  specialize (Hall (FieldElement 0 1) Hv). discriminate.
Qed.

(** C9. For all elements [x] and [e], over any two moduli, [pow x e] is
    [pow x (a e)]: the residue of [e] is the exponent, as a plain integer.
    It is not reduced modulo [p - 1] (the power [6] of the zero of the field
    of [7] elements is zero, where the exponent [6 mod 6 = 0] would give one),
    and the moduli are not compared: no [TypeError] comes out. *)
Theorem pow_element_exponent (x e : PrimeFieldElement) :
  pow x (Elem e) = pow x (Int (a e))
  /\ (0 < a e ->
      pow x (Elem e)
      = (result <- py_mod (a x ^ a e) (p x) ;; init result (p x)))
  /\ (forall msg, pow x (Elem e) <> Raise (TypeError msg))
  /\ pow (FieldElement 0 7) (Elem (FieldElement 6 7)) = Ok (FieldElement 0 7)
  /\ pow (FieldElement 2 7) (Elem (FieldElement 4 5)) = Ok (FieldElement 2 7).
Proof.
  split; [ | split; [ | split; [ | split]]].
  - apply pow_exponent. reflexivity.
  - intros Hpos. apply pow_pos. exact Hpos.
  - apply pow_no_type_error.
  - reflexivity.
  - reflexivity.
Qed.

(** ** Commutativity *)

(** C10. For elements [x] and [y] over the same modulus, [x + y] is [y + x]
    and [x * y] is [y * x]. *)
Theorem add_mul_comm (x y : PrimeFieldElement) (Hp : p x = p y) :
  add x (Elem y) = add y (Elem x) /\ mul x (Elem y) = mul y (Elem x).
Proof.
  unfold add, mul. rewrite <- Hp, Z.eqb_refl. cbn [negb].
  rewrite (Z.add_comm (a x) (a y)), (Z.mul_comm (a x) (a y)).
  split; reflexivity.
Qed.

Lemma add_mul_comm_witness :
  p (FieldElement 5 7) = p (FieldElement 2 7)
  /\ add (FieldElement 5 7) (Elem (FieldElement 2 7))
     = add (FieldElement 2 7) (Elem (FieldElement 5 7))
  /\ mul (FieldElement 5 7) (Elem (FieldElement 2 7))
     = mul (FieldElement 2 7) (Elem (FieldElement 5 7)).
Proof.
  split; [reflexivity | ].
  apply (add_mul_comm (FieldElement 5 7) (FieldElement 2 7)). reflexivity.
Defined.

Example ex_add_mul :
  add (FieldElement 5 7) (Elem (FieldElement 2 7)) = Ok (FieldElement 0 7)
  /\ mul (FieldElement 3 7) (Elem (FieldElement 5 7)) = Ok (FieldElement 1 7)
  /\ sub (FieldElement 2 7) (Elem (FieldElement 5 7)) = Ok (FieldElement 4 7)
  /\ sub (FieldElement 2 7) (Int 100) = Ok (FieldElement 0 7)
  /\ add (FieldElement 2 7) (Int (-100)) = Ok (FieldElement 0 7).
Proof. repeat split. Qed.

(** ** The representation invariant *)

Section Invariant.

Lemma reduce_preserves (x : PrimeFieldElement) (v : Z) :
  preserves x (r <- py_mod v (p x) ;; init r (p x)).
Proof. intros r Hr. apply (reduce_init_inv _ _ _ Hr). Qed.

Lemma raise_preserves (x : PrimeFieldElement) (e : exn) :
  preserves x (Raise e).
Proof. intros r Hr. discriminate. Qed.

Lemma init_preserves (x : PrimeFieldElement) (n : Z) :
  preserves x (init n (p x)).
Proof.
  intros r Hr. apply init_inv in Hr. destruct Hr as [-> Hr]. cbn.
  split; [exact Hr | reflexivity].
Qed.

(** [add], [sub] and [mul] have one shape: an integer operand goes to the
    reduction at once, an element operand through the comparison of the
    moduli. *)
Ltac binop_preserves op :=
  match goal with
  | |- preserves ?x (op ?x ?o) =>
      let n := fresh "n" in
      let y := fresh "y" in
      destruct o as [n | y]; cbn [op]; [apply reduce_preserves | ];
      destruct (negb (p x =? p y)); [apply raise_preserves | apply reduce_preserves]
  end.

Lemma add_preserves (x : PrimeFieldElement) (o : operand) :
  preserves x (add x o).
Proof. binop_preserves add. Qed.

Lemma sub_preserves (x : PrimeFieldElement) (o : operand) :
  preserves x (sub x o).
Proof. binop_preserves sub. Qed.

Lemma mul_preserves (x : PrimeFieldElement) (o : operand) :
  preserves x (mul x o).
Proof. binop_preserves mul. Qed.

Lemma inverse_preserves (x : PrimeFieldElement) : preserves x (inverse x).
Proof.
  intros r Hr. apply inverse_inv in Hr. destruct Hr as (_ & _ & Hv & Hp & _).
  split; [exact Hv | exact Hp].
Qed.

Lemma truediv_elem_preserves (x y : PrimeFieldElement) :
  preserves x (truediv x (Elem y)).
Proof.
  rewrite truediv_equation_2.
  destruct (negb (p x =? p y)); [apply raise_preserves | ].
  destruct (a y =? 0); [apply raise_preserves | ].
  destruct (inverse y) as [inv | e]; cbn [bind];
    [apply mul_preserves | apply raise_preserves].
Qed.

Lemma truediv_preserves (x : PrimeFieldElement) (o : operand) :
  preserves x (truediv x o).
Proof.
  destruct o as [n | y]; [ | apply truediv_elem_preserves].
  rewrite truediv_equation_1.
  destruct ((n >=? p x) || (n <? 0)); [apply raise_preserves | ].
  destruct (init n (p x)) as [wrapped | e]; cbn [bind];
    [apply truediv_elem_preserves | apply raise_preserves].
Qed.

Lemma pow_preserves (x : PrimeFieldElement) (o : operand) :
  preserves x (pow x o).
Proof.
  rewrite pow_body. cbv zeta.
  destruct (exponent o =? 0); [apply init_preserves | ].
  destruct (Z.ltb_spec (exponent o) 0) as [Hneg | Hpos];
    [ | apply reduce_preserves].
  destruct (inverse x) as [inv | e] eqn:Hinv; cbn [bind];
    [ | apply raise_preserves].
  apply inverse_preserves in Hinv. destruct Hinv as [_ Hp].
  rewrite pow_pos by (cbn [exponent]; lia).
  intros r Hr. apply reduce_preserves in Hr. rewrite <- Hp. exact Hr.
Qed.

End Invariant.

Create HintDb preserves.
#[export] Hint Resolve add_preserves sub_preserves mul_preserves
  truediv_preserves pow_preserves inverse_preserves : preserves.

(** C3. A constructed instance has [0 <= a < p], so a positive modulus.
    Whatever the second operand is -- an element or any integer, negative or
    beyond the modulus -- an element returned by [add], [sub], [mul],
    [truediv], [pow] or [inverse] is in range, over the modulus of the first
    operand.  On a live [x], [add], [sub] and [mul] by any integer, or by an
    element of the same modulus, do return: the residue is the mathematical
    one, non-negative also where the difference is negative. *)
Theorem invariant_preserved :
  (forall n m x, init n m = Ok x -> 0 <= a x < p x /\ 0 < p x)
  /\ (forall x o,
        preserves x (add x o) /\ preserves x (sub x o) /\ preserves x (mul x o)
        /\ preserves x (truediv x o) /\ preserves x (pow x o)
        /\ preserves x (inverse x))
  /\ (forall x y n, valid x -> p y = p x ->
        add x (Elem y) = Ok (FieldElement ((a x + a y) mod p x) (p x))
        /\ sub x (Elem y) = Ok (FieldElement ((a x - a y) mod p x) (p x))
        /\ mul x (Elem y) = Ok (FieldElement ((a x * a y) mod p x) (p x))
        /\ add x (Int n) = Ok (FieldElement ((a x + n) mod p x) (p x))
        /\ sub x (Int n) = Ok (FieldElement ((a x - n) mod p x) (p x))
        /\ mul x (Int n) = Ok (FieldElement ((a x * n) mod p x) (p x))
        /\ 0 <= (a x - a y) mod p x < p x
        /\ 0 <= (a x - n) mod p x < p x).
Proof.
  split; [ | split].
  - intros n m x Hi. apply init_inv in Hi. destruct Hi as [-> Hr]. cbn. lia.
  - intros x o. repeat apply conj; auto with preserves.
  - intros x y n Hv Hp. unfold valid in Hv.
    assert (Hpos : 0 < p x) by lia.
    unfold add, sub, mul. rewrite Hp, Z.eqb_refl. cbn [negb].
    rewrite !reduce_init by exact Hpos.
    repeat (split; [reflexivity | ]).
    split; apply Z.mod_pos_bound; exact Hpos.
Qed.

(** ** Negative exponents *)

Section NegativePower.

(** A residue has at most one inverse below the modulus. *)
Lemma inverse_unique (c u v m : Z) :
  0 <= u < m -> 0 <= v < m ->
  (c * u) mod m = 1 -> (c * v) mod m = 1 -> u = v.
Proof.
  intros Hu Hv Hcu Hcv.
  assert (Hm : m <> 0) by lia.
  rewrite <- (Z.mod_small u m Hu), <- (Z.mod_small v m Hv).
  rewrite <- (Z.mul_1_r u) at 1. rewrite <- Hcv.
  rewrite <- (Z.mul_1_r v) at 2. rewrite <- Hcu.
  rewrite !Z.mul_mod_idemp_r by exact Hm.
  f_equal. ring.
Qed.

(** The product of the [n]-th powers of two residues inverse of each other is
    one. *)
Lemma pow_inverse_one (c i n m : Z) :
  1 < m -> 0 <= n -> (c * i) mod m = 1 ->
  ((c ^ n mod m) * (i ^ n mod m)) mod m = 1.
Proof.
  intros Hm Hn Hci.
  rewrite <- Z.mul_mod by lia.
  rewrite <- Z.pow_mul_l, <- Z.mod_pow_l, Hci, Z.pow_1_l by exact Hn.
  apply Z.mod_small. lia.
Qed.

(** A residue is a unit when a positive power of it is. *)
Lemma coprime_pow_inv (c n m : Z) :
  0 < n -> Z.coprime (c ^ n mod m) m -> Z.coprime c m.
Proof.
  intros Hn Hco. apply (proj1 (Z.coprime_mod_l_iff _ _)) in Hco.
  unfold Z.coprime in *.
  apply Z.divide_1_r_nonneg; [apply Z.gcd_nonneg | ].
  rewrite <- Hco. apply Z.gcd_greatest.
  - apply Z.divide_trans with (m := c); [apply Z.gcd_divide_l | ].
    apply Z.divide_pow_same_r. lia.
  - apply Z.gcd_divide_r.
Qed.

Lemma coprime_pow_mod (c n m : Z) :
  0 <= n -> Z.coprime c m -> Z.coprime (c ^ n mod m) m.
Proof.
  intros Hn Hco. apply Z.coprime_mod_l_iff.
  apply Z.coprime_pow_l; assumption.
Qed.

(** A positive power of a live instance. *)
Lemma pow_pos_value (x : PrimeFieldElement) (n : Z) :
  valid x -> 0 < n ->
  pow x (Int n) = Ok (FieldElement (a x ^ n mod p x) (p x)).
Proof.
  intros Hv Hn. unfold valid in Hv.
  rewrite pow_pos by exact Hn. cbn [exponent]. apply reduce_init. lia.
Qed.

(** On a unit both routes to a negative power return the same element. *)
Lemma pow_neg_unit (x : PrimeFieldElement) (n : Z) :
  valid x -> a x <> 0 -> 0 < n -> Z.coprime (a x) (p x) ->
  (inv <- inverse x ;; pow inv (Int n))
  = Ok (FieldElement ((bezout x mod p x) ^ n mod p x) (p x))
  /\ (xn <- pow x (Int n) ;; inverse xn)
     = Ok (FieldElement ((bezout x mod p x) ^ n mod p x) (p x)).
Proof.
  intros Hv Hnz Hn Hco. pose proof Hv as Hr. unfold valid in Hr.
  assert (Hp1 : 1 < p x) by lia.
  pose proof (inverse_coprime x Hv Hp1 Hco) as [Hinv Hone].
  assert (Hvi : valid (FieldElement (bezout x mod p x) (p x))).
  { unfold valid. cbn. apply Z.mod_pos_bound. lia. }
  assert (Hvn : valid (FieldElement (a x ^ n mod p x) (p x))).
  { unfold valid. cbn. apply Z.mod_pos_bound. lia. }
  split.
  - rewrite Hinv. cbn [bind]. rewrite (pow_pos_value _ n Hvi Hn). reflexivity.
  - rewrite (pow_pos_value x n Hv Hn). cbn [bind].
    pose proof (inverse_coprime _ Hvn Hp1
                  (coprime_pow_mod (a x) n (p x) ltac:(lia) Hco)) as [Hinvn Honen].
    cbn [a p] in Hinvn, Honen. rewrite Hinvn. do 2 f_equal.
    apply (inverse_unique (a x ^ n mod p x) _ _ (p x)).
    + apply Z.mod_pos_bound. lia.
    + apply Z.mod_pos_bound. lia.
    + exact Honen.
    + apply pow_inverse_one; [exact Hp1 | lia | exact Hone].
Qed.

(** On anything else both routes raise [ValueError]. *)
Lemma pow_neg_not_unit (x : PrimeFieldElement) (n : Z) :
  valid x -> 0 < n -> ~ Z.coprime (a x) (p x) ->
  (exists msg, (inv <- inverse x ;; pow inv (Int n)) = Raise (ValueError msg))
  /\ (exists msg, (xn <- pow x (Int n) ;; inverse xn) = Raise (ValueError msg)).
Proof.
  intros Hv Hn Hnco. pose proof Hv as Hr. unfold valid in Hr. split.
  - destruct (inverse_not_coprime x Hv Hnco) as [msg Hraise].
    exists msg. rewrite Hraise. reflexivity.
  - rewrite (pow_pos_value x n Hv Hn). cbn [bind].
    apply inverse_not_coprime.
    + unfold valid. cbn. apply Z.mod_pos_bound. lia.
    + cbn [a p]. intros Hco. apply Hnco.
      apply (coprime_pow_inv _ n _ Hn Hco).
Qed.

End NegativePower.

(** C7. For a live [x] and [n > 0], [pow x (-n)] takes the inverse of [x]
    and raises it to the power [n]; on the residue zero that inverse raises
    the [ValueError] of line 149 (the spec's NotInvertible).  On a non-zero
    residue [pow x (-n)] and [inverse (pow x n)] have the same outcome: when
    the residue is prime to the modulus, as every non-zero residue is over a
    prime modulus, both return the same element; otherwise both raise
    [ValueError]. *)
Theorem pow_negative (x : PrimeFieldElement) (n : Z)
  (Hv : valid x) (Hn : 0 < n) :
  pow x (Int (- n)) = (inv <- inverse x ;; pow inv (Int n))
  /\ (a x = 0 ->
      pow x (Int (- n))
      = Raise (ValueError (str (a x) ++ " does not have an inverse in k")))
  /\ (a x <> 0 ->
      outcome (pow x (Int (- n))) = outcome (xn <- pow x (Int n) ;; inverse xn))
  /\ (a x <> 0 -> Z.prime (p x) \/ Z.coprime (a x) (p x) ->
      pow x (Int (- n)) = (xn <- pow x (Int n) ;; inverse xn)
      /\ exists r, pow x (Int (- n)) = Ok r /\ valid r /\ p r = p x).
Proof.
  assert (Hmech : pow x (Int (- n)) = (inv <- inverse x ;; pow inv (Int n))).
  { rewrite pow_neg by (cbn [exponent]; lia). cbn [exponent].
    replace (- n * -1) with n by lia. reflexivity. }
  assert (Hunit : a x <> 0 -> Z.coprime (a x) (p x) ->
            pow x (Int (- n)) = (xn <- pow x (Int n) ;; inverse xn)
            /\ exists r, pow x (Int (- n)) = Ok r /\ valid r /\ p r = p x).
  { intros Hnz Hco.
    destruct (pow_neg_unit x n Hv Hnz Hn Hco) as [Hl Hr].
    rewrite Hmech, Hl, Hr. split; [reflexivity | ].
    eexists. split; [reflexivity | ]. unfold valid in *. cbn.
    split; [apply Z.mod_pos_bound; lia | reflexivity]. }
  split; [exact Hmech | ]. split; [ | split].
  - intros Hz. rewrite Hmech, (inverse_zero x Hv Hz). reflexivity.
  - intros Hnz. destruct (Z.eq_dec (Z.gcd (a x) (p x)) 1) as [Hco | Hnco].
    + destruct (Hunit Hnz Hco) as [Heq _]. rewrite Heq. reflexivity.
    + destruct (pow_neg_not_unit x n Hv Hn Hnco) as [[m1 Hl] [m2 Hr]].
      rewrite Hmech, Hl, Hr. reflexivity.
  - intros Hnz [Hprime | Hco].
    + apply Hunit; [exact Hnz | ]. apply prime_coprime; assumption.
    + apply Hunit; assumption.
Qed.

Lemma pow_negative_witness :
  (valid (FieldElement 2 7) /\ 0 < 3)
  /\ pow (FieldElement 2 7) (Int (- 3))
     = (xn <- pow (FieldElement 2 7) (Int 3) ;; inverse xn)
  /\ exists r, pow (FieldElement 2 7) (Int (- 3)) = Ok r
               /\ valid r /\ p r = p (FieldElement 2 7).
Proof.
  assert (Hv : valid (FieldElement 2 7)) by (unfold valid; cbn; lia).
  assert (Hn : 0 < 3) by lia.
  assert (Hnz : a (FieldElement 2 7) <> 0) by (cbn; lia).
  split; [split; [exact Hv | exact Hn] | ].
  exact (proj2 (proj2 (proj2 (pow_negative (FieldElement 2 7) 3 Hv Hn)))
           Hnz (or_introl prime_7)).
Defined.

(** Over the modulus [4] the residue [2] is no unit: both routes raise
    [ValueError], each from its own line of [inverse]. *)
Example ex_pow_negative :
  pow (FieldElement 2 7) (Int (-3)) = Ok (FieldElement 1 7)
  /\ (xn <- pow (FieldElement 2 7) (Int 3) ;; inverse xn) = Ok (FieldElement 1 7)
  /\ pow (FieldElement 3 7) (Int (-2)) = Ok (FieldElement 4 7)
  /\ pow (FieldElement 2 4) (Int (-2))
     = Raise (ValueError "The Euclidean algorithm didn't work with this element")
  /\ (xn <- pow (FieldElement 2 4) (Int 2) ;; inverse xn)
     = Raise (ValueError "0 does not have an inverse in k")
  /\ pow (FieldElement 0 7) (Int (-1))
     = Raise (ValueError "0 does not have an inverse in k").
Proof. repeat split. Qed.

(** * Further properties of the operators *)

(** ** Ring laws *)

Section Ring.

Lemma eta (x : PrimeFieldElement) : FieldElement (a x) (p x) = x.
Proof. destruct x. reflexivity. Qed.

(** The residue an operator returns over a positive modulus. *)
Lemma add_elem_value (x y : PrimeFieldElement) :
  0 < p x -> p y = p x ->
  add x (Elem y) = Ok (FieldElement ((a x + a y) mod p x) (p x)).
Proof.
  intros Hpos Hp. unfold add. rewrite Hp, Z.eqb_refl. cbn [negb].
  apply reduce_init. exact Hpos.
Qed.

Lemma sub_elem_value (x y : PrimeFieldElement) :
  0 < p x -> p y = p x ->
  sub x (Elem y) = Ok (FieldElement ((a x - a y) mod p x) (p x)).
Proof.
  intros Hpos Hp. unfold sub. rewrite Hp, Z.eqb_refl. cbn [negb].
  apply reduce_init. exact Hpos.
Qed.

Lemma mul_elem_value (x y : PrimeFieldElement) :
  0 < p x -> p y = p x ->
  mul x (Elem y) = Ok (FieldElement ((a x * a y) mod p x) (p x)).
Proof.
  intros Hpos Hp. unfold mul. rewrite Hp, Z.eqb_refl. cbn [negb].
  apply reduce_init. exact Hpos.
Qed.

Lemma add_int_value (x : PrimeFieldElement) (n : Z) :
  0 < p x -> add x (Int n) = Ok (FieldElement ((a x + n) mod p x) (p x)).
Proof. intros Hpos. apply reduce_init. exact Hpos. Qed.

Lemma sub_int_value (x : PrimeFieldElement) (n : Z) :
  0 < p x -> sub x (Int n) = Ok (FieldElement ((a x - n) mod p x) (p x)).
Proof. intros Hpos. apply reduce_init. exact Hpos. Qed.

Lemma mul_int_value (x : PrimeFieldElement) (n : Z) :
  0 < p x -> mul x (Int n) = Ok (FieldElement ((a x * n) mod p x) (p x)).
Proof. intros Hpos. apply reduce_init. exact Hpos. Qed.

End Ring.

(** Rewrites every operator applied to an element or an integer over a
    modulus known to be positive, and the binds that follow. *)
Ltac op_values :=
  repeat (first
    [ rewrite add_elem_value by (cbn [a p]; (assumption || lia))
    | rewrite sub_elem_value by (cbn [a p]; (assumption || lia))
    | rewrite mul_elem_value by (cbn [a p]; (assumption || lia))
    | rewrite add_int_value by (cbn [a p]; (assumption || lia))
    | rewrite sub_int_value by (cbn [a p]; (assumption || lia))
    | rewrite mul_int_value by (cbn [a p]; (assumption || lia)) ];
    cbn [bind a p]).

(** X1. On a live instance, adding or subtracting the integer [0] and
    multiplying by the integer [1] give the instance back; multiplying by [0]
    and subtracting the instance from itself give the zero of its field. *)
Theorem identity_laws (x : PrimeFieldElement) (Hv : valid x) :
  add x (Int 0) = Ok x
  /\ sub x (Int 0) = Ok x
  /\ mul x (Int 1) = Ok x
  /\ mul x (Int 0) = Ok (FieldElement 0 (p x))
  /\ sub x (Elem x) = Ok (FieldElement 0 (p x)).
Proof.
  unfold valid in Hv. assert (Hpos : 0 < p x) by lia.
  op_values.
  rewrite Z.add_0_r, Z.sub_0_r, Z.mul_1_r, Z.mul_0_r, Z.sub_diag.
  rewrite (Z.mod_small (a x)) by exact Hv.
  rewrite Z.mod_0_l by lia. rewrite eta.
  repeat split.
Qed.

Lemma identity_laws_witness :
  valid (FieldElement 5 7)
  /\ add (FieldElement 5 7) (Int 0) = Ok (FieldElement 5 7)
  /\ sub (FieldElement 5 7) (Int 0) = Ok (FieldElement 5 7)
  /\ mul (FieldElement 5 7) (Int 1) = Ok (FieldElement 5 7)
  /\ mul (FieldElement 5 7) (Int 0) = Ok (FieldElement 0 7)
  /\ sub (FieldElement 5 7) (Elem (FieldElement 5 7)) = Ok (FieldElement 0 7).
Proof.
  assert (Hv : valid (FieldElement 5 7)) by (unfold valid; cbn; lia).
  split; [exact Hv | exact (identity_laws (FieldElement 5 7) Hv)].
Defined.

(** X2. On a live instance [x], subtracting what was added, or adding what
    was subtracted, gives [x] back, for an element of the same modulus and for
    any integer. *)
Theorem add_sub_cancel (x y : PrimeFieldElement) (n : Z)
  (Hv : valid x) (Hp : p y = p x) :
  (s <- add x (Elem y) ;; sub s (Elem y)) = Ok x
  /\ (d <- sub x (Elem y) ;; add d (Elem y)) = Ok x
  /\ (s <- add x (Int n) ;; sub s (Int n)) = Ok x
  /\ (d <- sub x (Int n) ;; add d (Int n)) = Ok x.
Proof.
  unfold valid in Hv. assert (Hpos : 0 < p x) by lia.
  op_values.
  rewrite !Zminus_mod_idemp_l, !Z.add_mod_idemp_l by lia.
  replace (a x + a y - a y) with (a x) by ring.
  replace (a x - a y + a y) with (a x) by ring.
  replace (a x + n - n) with (a x) by ring.
  replace (a x - n + n) with (a x) by ring.
  rewrite (Z.mod_small (a x)) by exact Hv. rewrite eta.
  repeat split.
Qed.

Lemma add_sub_cancel_witness :
  (valid (FieldElement 2 7) /\ p (FieldElement 5 7) = p (FieldElement 2 7))
  /\ (s <- add (FieldElement 2 7) (Elem (FieldElement 5 7)) ;;
      sub s (Elem (FieldElement 5 7))) = Ok (FieldElement 2 7)
  /\ (d <- sub (FieldElement 2 7) (Elem (FieldElement 5 7)) ;;
      add d (Elem (FieldElement 5 7))) = Ok (FieldElement 2 7)
  /\ (s <- add (FieldElement 2 7) (Int (-100)) ;; sub s (Int (-100)))
     = Ok (FieldElement 2 7)
  /\ (d <- sub (FieldElement 2 7) (Int (-100)) ;; add d (Int (-100)))
     = Ok (FieldElement 2 7).
Proof.
  assert (Hv : valid (FieldElement 2 7)) by (unfold valid; cbn; lia).
  assert (Hp : p (FieldElement 5 7) = p (FieldElement 2 7)) by reflexivity.
  split; [split; [exact Hv | exact Hp] | ].
  exact (add_sub_cancel (FieldElement 2 7) (FieldElement 5 7) (-100) Hv Hp).
Defined.

(** X3. On a live instance, [add], [sub] and [mul] take any integer for its
    residue: the integer [n] acts as the element of residue [n mod p], which
    the constructor accepts. *)
Theorem int_operand_reduced (x : PrimeFieldElement) (n : Z) (Hv : valid x) :
  init (n mod p x) (p x) = Ok (FieldElement (n mod p x) (p x))
  /\ add x (Int n) = add x (Elem (FieldElement (n mod p x) (p x)))
  /\ sub x (Int n) = sub x (Elem (FieldElement (n mod p x) (p x)))
  /\ mul x (Int n) = mul x (Elem (FieldElement (n mod p x) (p x))).
Proof.
  unfold valid in Hv. assert (Hpos : 0 < p x) by lia.
  split; [apply init_ok, Z.mod_pos_bound; exact Hpos | ].
  op_values.
  rewrite Z.add_mod_idemp_r, Zminus_mod_idemp_r, Z.mul_mod_idemp_r by lia.
  repeat split.
Qed.

Lemma int_operand_reduced_witness :
  valid (FieldElement 2 7)
  /\ add (FieldElement 2 7) (Int (-100))
     = add (FieldElement 2 7) (Elem (FieldElement 5 7))
  /\ mul (FieldElement 2 7) (Int (-100))
     = mul (FieldElement 2 7) (Elem (FieldElement 5 7)).
Proof.
  assert (Hv : valid (FieldElement 2 7)) by (unfold valid; cbn; lia).
  pose proof (int_operand_reduced (FieldElement 2 7) (-100) Hv) as Hr.
  split; [exact Hv | ].
  split; [exact (proj1 (proj2 Hr)) | exact (proj2 (proj2 (proj2 Hr)))].
Defined.

(** X4. Over one modulus, on live instances, addition and multiplication are
    associative. *)
Theorem add_mul_assoc (x y z : PrimeFieldElement)
  (Hv : valid x) (Hy : p y = p x) (Hz : p z = p x) :
  (s <- add x (Elem y) ;; add s (Elem z))
  = (t <- add y (Elem z) ;; add x (Elem t))
  /\ (s <- mul x (Elem y) ;; mul s (Elem z))
     = (t <- mul y (Elem z) ;; mul x (Elem t)).
Proof.
  unfold valid in Hv. assert (Hpos : 0 < p x) by lia.
  assert (Hposy : 0 < p y) by lia. assert (Hzy : p z = p y) by lia.
  op_values. rewrite Hy.
  rewrite Z.add_mod_idemp_l, Z.add_mod_idemp_r by lia.
  rewrite Z.mul_mod_idemp_l, Z.mul_mod_idemp_r by lia.
  rewrite Z.add_assoc, Z.mul_assoc. split; reflexivity.
Qed.

Lemma add_mul_assoc_witness :
  (valid (FieldElement 3 7) /\ p (FieldElement 5 7) = p (FieldElement 3 7)
   /\ p (FieldElement 6 7) = p (FieldElement 3 7))
  /\ (s <- mul (FieldElement 3 7) (Elem (FieldElement 5 7)) ;;
      mul s (Elem (FieldElement 6 7)))
     = (t <- mul (FieldElement 5 7) (Elem (FieldElement 6 7)) ;;
        mul (FieldElement 3 7) (Elem t)).
Proof.
  assert (Hv : valid (FieldElement 3 7)) by (unfold valid; cbn; lia).
  split; [split; [exact Hv | split; reflexivity] | ].
  exact (proj2 (add_mul_assoc (FieldElement 3 7) (FieldElement 5 7)
                  (FieldElement 6 7) Hv eq_refl eq_refl)).
Defined.

(** X5. Over one modulus, on live instances, multiplication distributes over
    addition and over subtraction. *)
Theorem mul_distributes (x y z : PrimeFieldElement)
  (Hv : valid x) (Hy : p y = p x) (Hz : p z = p x) :
  (s <- add y (Elem z) ;; mul x (Elem s))
  = (u <- mul x (Elem y) ;; v <- mul x (Elem z) ;; add u (Elem v))
  /\ (d <- sub y (Elem z) ;; mul x (Elem d))
     = (u <- mul x (Elem y) ;; v <- mul x (Elem z) ;; sub u (Elem v)).
Proof.
  unfold valid in Hv. assert (Hpos : 0 < p x) by lia.
  assert (Hposy : 0 < p y) by lia. assert (Hzy : p z = p y) by lia.
  op_values. rewrite Hy.
  rewrite !Z.mul_mod_idemp_r by lia.
  rewrite <- Z.add_mod, <- Zminus_mod by lia.
  rewrite Z.mul_add_distr_l, Z.mul_sub_distr_l. split; reflexivity.
Qed.

Lemma mul_distributes_witness :
  (valid (FieldElement 3 7) /\ p (FieldElement 5 7) = p (FieldElement 3 7)
   /\ p (FieldElement 6 7) = p (FieldElement 3 7))
  /\ (s <- add (FieldElement 5 7) (Elem (FieldElement 6 7)) ;;
      mul (FieldElement 3 7) (Elem s))
     = (u <- mul (FieldElement 3 7) (Elem (FieldElement 5 7)) ;;
        v <- mul (FieldElement 3 7) (Elem (FieldElement 6 7)) ;;
        add u (Elem v)).
Proof.
  assert (Hv : valid (FieldElement 3 7)) by (unfold valid; cbn; lia).
  split; [split; [exact Hv | split; reflexivity] | ].
  exact (proj1 (mul_distributes (FieldElement 3 7) (FieldElement 5 7)
                  (FieldElement 6 7) Hv eq_refl eq_refl)).
Defined.

(** X6. Over a prime modulus a product of live instances is the zero of the
    field only when a factor is. *)
Theorem no_zero_divisors (x y : PrimeFieldElement)
  (Hx : valid x) (Hy : valid y) (Hp : p y = p x) (Hprime : Z.prime (p x)) :
  mul x (Elem y) = Ok (FieldElement 0 (p x)) <-> a x = 0 \/ a y = 0.
Proof.
  unfold valid in Hx, Hy. assert (Hpos : 0 < p x) by lia.
  op_values. split.
  - intros [= Hz]. apply Z.mod_divide in Hz; [ | lia].
    apply (Z.divide_prime_mul _ _ _ Hprime) in Hz.
    destruct Hz as [Hd | Hd]; [left | right].
    + destruct (Z.eq_dec (a x) 0) as [ | Hnz]; [assumption | ].
      apply Z.divide_pos_le in Hd; lia.
    + destruct (Z.eq_dec (a y) 0) as [ | Hnz]; [assumption | ].
      apply Z.divide_pos_le in Hd; lia.
  - intros [Hz | Hz]; rewrite Hz, ?Z.mul_0_l, ?Z.mul_0_r, Z.mod_0_l by lia;
      reflexivity.
Qed.

Lemma no_zero_divisors_witness :
  (valid (FieldElement 3 7) /\ valid (FieldElement 0 7)
   /\ p (FieldElement 0 7) = p (FieldElement 3 7)
   /\ Z.prime (p (FieldElement 3 7)))
  /\ (mul (FieldElement 3 7) (Elem (FieldElement 0 7)) = Ok (FieldElement 0 7)
      <-> a (FieldElement 3 7) = 0 \/ a (FieldElement 0 7) = 0).
Proof.
  assert (Hx : valid (FieldElement 3 7)) by (unfold valid; cbn; lia).
  assert (Hy : valid (FieldElement 0 7)) by (unfold valid; cbn; lia).
  split; [split; [exact Hx | split; [exact Hy | split; [reflexivity | exact prime_7]]] | ].
  exact (no_zero_divisors (FieldElement 3 7) (FieldElement 0 7) Hx Hy eq_refl prime_7).
Defined.

(** Over the modulus [4] the residue [2] is a zero divisor. *)
Example ex_zero_divisor :
  mul (FieldElement 2 4) (Elem (FieldElement 2 4)) = Ok (FieldElement 0 4).
Proof. reflexivity. Qed.

(** ** Inverse and division *)

Section Division.

(** What a returned inverse is, whatever the instance. *)
Lemma inverse_ok_product (x i : PrimeFieldElement) :
  inverse x = Ok i ->
  1 < p x /\ p i = p x /\ 0 <= a i < p x /\ (a x * a i) mod p x = 1.
Proof.
  intros Hinv. apply inverse_inv in Hinv.
  destruct Hinv as (Hg & Hnp & Hvi & Hp & Hai).
  unfold valid in Hvi. rewrite Hp in Hvi.
  assert (Hp1 : 1 < p x) by lia.
  split; [exact Hp1 | ]. split; [exact Hp | ]. split; [exact Hvi | ].
  pose proof (bezout_identity x) as Hb. rewrite Hg in Hb.
  rewrite Hai, Z.mul_mod_idemp_r by lia.
  replace (a x * bezout x)
    with (1 + - snd (gcdExtended (a x) (p x)) * p x) by lia.
  rewrite Z.mod_add by lia. apply Z.mod_small. lia.
Qed.

(** A residue with an inverse modulo [m] is prime to [m]. *)
Lemma coprime_of_product (c i m : Z) :
  (c * i) mod m = 1 -> Z.coprime i m.
Proof.
  intros Hone. apply Z.coprime_Bezout.
  exists c, (- (c * i / m)).
  destruct (Z.eq_dec m 0) as [-> | Hm].
  - rewrite Z.mod_0_r in Hone. lia.
  - pose proof (Z.div_mod (c * i) m Hm) as Hdm. rewrite Hone in Hdm. lia.
Qed.

(** The quotient by an element, multiplied back. *)
Lemma truediv_elem_sound (x y q : PrimeFieldElement) :
  valid x -> truediv x (Elem y) = Ok q ->
  p y = p x /\ p q = p x
  /\ (a q * a y) mod p x = a x /\ 0 <= a q < p x.
Proof.
  intros Hv. unfold valid in Hv. rewrite truediv_equation_2.
  destruct (Z.eqb_spec (p x) (p y)) as [Hp | ]; cbn [negb]; [ | discriminate].
  destruct (a y =? 0); [discriminate | ].
  destruct (inverse y) as [i | e] eqn:Hinv; cbn [bind]; [ | discriminate].
  apply inverse_ok_product in Hinv.
  destruct Hinv as (Hp1 & Hpi & Hri & Hone). rewrite <- Hp in *.
  rewrite mul_elem_value by lia. intros [= <-]. cbn [a p].
  split; [reflexivity | ]. split; [reflexivity | ].
  split; [ | apply Z.mod_pos_bound; lia].
  rewrite Z.mul_mod_idemp_l, <- Z.mul_assoc, (Z.mul_comm (a i)) by lia.
  rewrite <- Z.mul_mod_idemp_r, Hone, Z.mul_1_r by lia.
  apply Z.mod_small. exact Hv.
Qed.

(** Division by a unit. *)
Lemma truediv_unit (x y : PrimeFieldElement) :
  0 < p x -> valid y -> p y = p x -> 1 < p x -> Z.coprime (a y) (p x) ->
  truediv x (Elem y)
  = Ok (FieldElement ((a x * (bezout y mod p x)) mod p x) (p x))
  /\ (a y * (bezout y mod p x)) mod p x = 1.
Proof.
  intros Hpos Hy Hp Hp1 Hco. rewrite <- Hp in Hco, Hp1.
  destruct (inverse_coprime y Hy Hp1 Hco) as [Hinv Hone].
  rewrite Hp in Hinv, Hone. split; [ | exact Hone].
  rewrite truediv_equation_2, Hp, Z.eqb_refl. cbn [negb].
  destruct (Z.eqb_spec (a y) 0) as [Hz | _].
  - rewrite Hz, Z.mul_0_l, Z.mod_0_l in Hone by lia. discriminate.
  - rewrite Hinv. cbn [bind]. apply mul_elem_value; [exact Hpos | reflexivity].
Qed.

End Division.

(** X7. Whatever the instance and the modulus, an element that [inverse]
    returns is an inverse: it is in range over the same modulus, which is
    greater than [1], and its product with the instance, on either side, is
    the one of the field. *)
Theorem inverse_sound (x i : PrimeFieldElement) (Hinv : inverse x = Ok i) :
  1 < p x /\ valid i /\ p i = p x
  /\ mul x (Elem i) = Ok (FieldElement 1 (p x))
  /\ mul i (Elem x) = Ok (FieldElement 1 (p x)).
Proof.
  destruct (inverse_ok_product x i Hinv) as (Hp1 & Hp & Hr & Hone).
  split; [exact Hp1 | ]. split; [unfold valid; rewrite Hp; exact Hr | ].
  split; [exact Hp | ].
  rewrite (mul_elem_value x i) by lia.
  rewrite (mul_elem_value i x) by lia.
  rewrite Hp, (Z.mul_comm (a i)), Hone. split; reflexivity.
Qed.

Lemma inverse_sound_witness :
  inverse (FieldElement 5 6) = Ok (FieldElement 5 6)
  /\ mul (FieldElement 5 6) (Elem (FieldElement 5 6)) = Ok (FieldElement 1 6).
Proof.
  assert (Hinv : inverse (FieldElement 5 6) = Ok (FieldElement 5 6)) by reflexivity.
  split; [exact Hinv | ].
  exact (proj1 (proj2 (proj2 (proj2
           (inverse_sound (FieldElement 5 6) (FieldElement 5 6) Hinv))))).
Defined.

(** X8. A quotient that [truediv] returns for a live dividend is a quotient:
    multiplied by the divisor, element or integer, it gives the dividend
    back.  This holds over any modulus, prime or not. *)
Theorem truediv_sound (x q : PrimeFieldElement) (o : operand)
  (Hv : valid x) (Hdiv : truediv x o = Ok q) :
  mul q o = Ok x.
Proof.
  pose proof Hv as Hr. unfold valid in Hr.
  destruct o as [n | y].
  - rewrite truediv_equation_1 in Hdiv.
    destruct ((n >=? p x) || (n <? 0)); [discriminate | ].
    destruct (init n (p x)) as [w | e] eqn:Hw; cbn [bind] in Hdiv; [ | discriminate].
    apply init_inv in Hw. destruct Hw as [-> _].
    destruct (truediv_elem_sound x _ q Hv Hdiv) as (_ & Hq & Hprod & _).
    cbn [a p] in Hprod.
    rewrite mul_int_value by lia. rewrite Hq, Hprod, eta. reflexivity.
  - destruct (truediv_elem_sound x y q Hv Hdiv) as (Hy & Hq & Hprod & _).
    rewrite mul_elem_value by lia. rewrite Hq, Hprod, eta. reflexivity.
Qed.

Lemma truediv_sound_witness :
  (valid (FieldElement 5 9) /\ truediv (FieldElement 5 9) (Int 4) = Ok (FieldElement 8 9))
  /\ mul (FieldElement 8 9) (Int 4) = Ok (FieldElement 5 9).
Proof.
  assert (Hv : valid (FieldElement 5 9)) by (unfold valid; cbn; lia).
  assert (Hdiv : truediv (FieldElement 5 9) (Int 4) = Ok (FieldElement 8 9))
    by reflexivity.
  split; [split; [exact Hv | exact Hdiv] | ].
  exact (truediv_sound (FieldElement 5 9) (FieldElement 8 9) (Int 4) Hv Hdiv).
Defined.

(** X9. Division by a live unit -- a residue prime to a modulus greater than
    [1], as every non-zero residue is over a prime modulus -- always returns:
    the quotient times the divisor is the dividend, the product divided by the
    divisor is the first factor, and the divisor divided by itself is one. *)
Theorem truediv_by_unit (x y : PrimeFieldElement)
  (Hx : valid x) (Hy : valid y) (Hp : p y = p x)
  (Hp1 : 1 < p x) (Hco : Z.coprime (a y) (p x)) :
  (exists q, truediv x (Elem y) = Ok q /\ valid q /\ p q = p x
             /\ mul q (Elem y) = Ok x)
  /\ (m <- mul x (Elem y) ;; truediv m (Elem y)) = Ok x
  /\ truediv y (Elem y) = Ok (FieldElement 1 (p x)).
Proof.
  pose proof Hx as Hrx. pose proof Hy as Hry. unfold valid in Hrx, Hry.
  assert (Hpos : 0 < p x) by lia.
  destruct (truediv_unit x y Hpos Hy Hp Hp1 Hco) as [Hdiv Hone].
  split; [ | split].
  - eexists. split; [exact Hdiv | ].
    split; [unfold valid; cbn [a p]; apply Z.mod_pos_bound; exact Hpos | ].
    split; [reflexivity | ].
    rewrite mul_elem_value by (cbn [a p]; lia). cbn [a p].
    rewrite Z.mul_mod_idemp_l, <- Z.mul_assoc, (Z.mul_comm _ (a y)) by lia.
    rewrite <- Z.mul_mod_idemp_r, Hone, Z.mul_1_r by lia.
    rewrite Z.mod_small by exact Hrx. rewrite eta. reflexivity.
  - rewrite mul_elem_value by lia. cbn [bind].
    destruct (truediv_unit (FieldElement ((a x * a y) mod p x) (p x)) y)
      as [Hdiv' _]; cbn [a p]; try assumption.
    rewrite Hdiv'. cbn [a p].
    rewrite Z.mul_mod_idemp_l, <- Z.mul_assoc by lia.
    rewrite <- Z.mul_mod_idemp_r, Hone, Z.mul_1_r by lia.
    rewrite Z.mod_small by exact Hrx. rewrite eta. reflexivity.
  - destruct (truediv_unit y y) as [Hdiv' _]; try assumption; try lia.
    + rewrite Hp. exact Hco.
    + rewrite Hdiv', Hp, Hone. reflexivity.
Qed.

Lemma truediv_by_unit_witness :
  (valid (FieldElement 5 7) /\ valid (FieldElement 3 7)
   /\ p (FieldElement 3 7) = p (FieldElement 5 7)
   /\ 1 < p (FieldElement 5 7)
   /\ Z.coprime (a (FieldElement 3 7)) (p (FieldElement 5 7)))
  /\ (m <- mul (FieldElement 5 7) (Elem (FieldElement 3 7)) ;;
      truediv m (Elem (FieldElement 3 7))) = Ok (FieldElement 5 7)
  /\ truediv (FieldElement 3 7) (Elem (FieldElement 3 7)) = Ok (FieldElement 1 7).
Proof.
  assert (Hx : valid (FieldElement 5 7)) by (unfold valid; cbn; lia).
  assert (Hy : valid (FieldElement 3 7)) by (unfold valid; cbn; lia).
  assert (Hp1 : 1 < p (FieldElement 5 7)) by (cbn; lia).
  assert (Hco : Z.coprime (a (FieldElement 3 7)) (p (FieldElement 5 7)))
    by reflexivity.
  split; [exact (conj Hx (conj Hy (conj eq_refl (conj Hp1 Hco)))) | ].
  exact (proj2 (truediv_by_unit (FieldElement 5 7) (FieldElement 3 7)
                  Hx Hy eq_refl Hp1 Hco)).
Defined.

(** X10. On a live unit [inverse] is an involution: the inverse of the
    inverse is the instance itself. *)
Theorem inverse_involutive (x : PrimeFieldElement)
  (Hv : valid x) (Hp1 : 1 < p x) (Hco : Z.coprime (a x) (p x)) :
  (i <- inverse x ;; inverse i) = Ok x.
Proof.
  pose proof Hv as Hr. unfold valid in Hr.
  destruct (inverse_coprime x Hv Hp1 Hco) as [Hinv Hone].
  rewrite Hinv. cbn [bind].
  set (i := FieldElement (bezout x mod p x) (p x)) in *.
  assert (Hvi : valid i) by (unfold valid; cbn; apply Z.mod_pos_bound; lia).
  assert (Hcoi : Z.coprime (a i) (p i)).
  { cbn [a p i]. apply (coprime_of_product (a x)). exact Hone. }
  destruct (inverse_coprime i Hvi Hp1 Hcoi) as [Hinvi Honei].
  rewrite Hinvi. cbn [a p i] in *. rewrite <- (eta x) at 3. do 2 f_equal.
  apply (inverse_unique (bezout x mod p x) _ _ (p x)).
  - apply Z.mod_pos_bound. lia.
  - exact Hr.
  - exact Honei.
  - rewrite Z.mul_comm. exact Hone.
Qed.

Lemma inverse_involutive_witness :
  (valid (FieldElement 3 7) /\ 1 < p (FieldElement 3 7)
   /\ Z.coprime (a (FieldElement 3 7)) (p (FieldElement 3 7)))
  /\ (i <- inverse (FieldElement 3 7) ;; inverse i) = Ok (FieldElement 3 7).
Proof.
  assert (Hv : valid (FieldElement 3 7)) by (unfold valid; cbn; lia).
  assert (Hp1 : 1 < p (FieldElement 3 7)) by (cbn; lia).
  assert (Hco : Z.coprime (a (FieldElement 3 7)) (p (FieldElement 3 7)))
    by reflexivity.
  split; [exact (conj Hv (conj Hp1 Hco)) | ].
  exact (inverse_involutive (FieldElement 3 7) Hv Hp1 Hco).
Defined.

(** ** Exponentiation *)

Section PowerLaws.

(** A negative exponent: the inverse, then the positive power. *)
Lemma pow_neg_inverse (x : PrimeFieldElement) (n : Z) :
  0 < n -> pow x (Int (- n)) = (inv <- inverse x ;; pow inv (Int n)).
Proof.
  intros Hn. rewrite pow_neg by (cbn [exponent]; lia). cbn [exponent].
  replace (- n * -1) with n by lia. reflexivity.
Qed.

End PowerLaws.

(** X11. Whatever the instance, its power [-1] is its [inverse]: the same
    element when there is one, the same exception otherwise. *)
Theorem pow_minus_one (x : PrimeFieldElement) :
  pow x (Int (-1)) = inverse x.
Proof.
  change (Int (-1)) with (Int (- (1))).
  rewrite (pow_neg_inverse x 1) by lia.
  destruct (inverse x) as [inv | e] eqn:Hinv; cbn [bind]; [ | reflexivity].
  destruct (inverse_ok_product x inv Hinv) as (Hp1 & Hp & Hr & _).
  rewrite <- Hp in Hr.
  rewrite pow_pos_value by (unfold valid; lia).
  rewrite Z.pow_1_r, Z.mod_small by exact Hr. rewrite eta. reflexivity.
Qed.

(** X12. On a live instance the power [1] is the instance, and a positive
    power is the previous one times the instance: [__pow__] on a positive
    exponent is repeated [__mul__]. *)
Theorem pow_succ (x : PrimeFieldElement) (n : Z)
  (Hv : valid x) (Hn : 0 < n) :
  pow x (Int 1) = Ok x
  /\ pow x (Int (n + 1)) = (r <- pow x (Int n) ;; mul r (Elem x)).
Proof.
  pose proof Hv as Hr. unfold valid in Hr.
  rewrite !pow_pos_value by (assumption || lia). cbn [bind].
  rewrite mul_elem_value by (cbn [a p]; lia). cbn [a p].
  rewrite Z.pow_1_r, (Z.mod_small (a x)) by exact Hr. rewrite eta.
  rewrite Z.mul_mod_idemp_l by lia.
  rewrite Z.pow_add_r, Z.pow_1_r by lia. split; reflexivity.
Qed.

Lemma pow_succ_witness :
  (valid (FieldElement 3 7) /\ 0 < 4)
  /\ pow (FieldElement 3 7) (Int 5)
     = (r <- pow (FieldElement 3 7) (Int 4) ;; mul r (Elem (FieldElement 3 7))).
Proof.
  assert (Hv : valid (FieldElement 3 7)) by (unfold valid; cbn; lia).
  assert (Hn : 0 < 4) by lia.
  split; [exact (conj Hv Hn) | ].
  exact (proj2 (pow_succ (FieldElement 3 7) 4 Hv Hn)).
Defined.

(** X13. On a live instance and positive exponents, the power of a sum is
    the product of the powers, and the power of a power is the power of the
    product of the exponents. *)
Theorem pow_add_mul (x : PrimeFieldElement) (m n : Z)
  (Hv : valid x) (Hm : 0 < m) (Hn : 0 < n) :
  pow x (Int (m + n))
  = (r <- pow x (Int m) ;; s <- pow x (Int n) ;; mul r (Elem s))
  /\ (r <- pow x (Int m) ;; pow r (Int n)) = pow x (Int (m * n)).
Proof.
  pose proof Hv as Hr. unfold valid in Hr.
  assert (Hvm : valid (FieldElement (a x ^ m mod p x) (p x))).
  { unfold valid. cbn [a p]. apply Z.mod_pos_bound. lia. }
  rewrite !(pow_pos_value x) by (assumption || nia). cbn [bind].
  rewrite mul_elem_value by (cbn [a p]; lia).
  rewrite (pow_pos_value _ n Hvm Hn). cbn [a p].
  rewrite <- Z.mul_mod, Z.mod_pow_l by lia.
  rewrite Z.pow_add_r, Z.pow_mul_r by lia. split; reflexivity.
Qed.

Lemma pow_add_mul_witness :
  (valid (FieldElement 3 7) /\ 0 < 2 /\ 0 < 3)
  /\ pow (FieldElement 3 7) (Int 5)
     = (r <- pow (FieldElement 3 7) (Int 2) ;;
        s <- pow (FieldElement 3 7) (Int 3) ;; mul r (Elem s))
  /\ (r <- pow (FieldElement 3 7) (Int 2) ;; pow r (Int 3))
     = pow (FieldElement 3 7) (Int 6).
Proof.
  assert (Hv : valid (FieldElement 3 7)) by (unfold valid; cbn; lia).
  assert (Hm : 0 < 2) by lia. assert (Hn : 0 < 3) by lia.
  split; [exact (conj Hv (conj Hm Hn)) | ].
  exact (pow_add_mul (FieldElement 3 7) 2 3 Hv Hm Hn).
Defined.

(** X14. On a live unit with a non-zero residue, the powers [-n] and [n]
    multiply to the one of the field. *)
Theorem pow_neg_cancel (x : PrimeFieldElement) (n : Z)
  (Hv : valid x) (Hnz : a x <> 0) (Hco : Z.coprime (a x) (p x)) (Hn : 0 < n) :
  (r <- pow x (Int (- n)) ;; s <- pow x (Int n) ;; mul r (Elem s))
  = Ok (FieldElement 1 (p x)).
Proof.
  pose proof Hv as Hr. unfold valid in Hr.
  assert (Hp1 : 1 < p x) by lia.
  destruct (pow_neg_unit x n Hv Hnz Hn Hco) as [Hneg _].
  destruct (inverse_coprime x Hv Hp1 Hco) as [_ Hone].
  rewrite (pow_neg_inverse x n Hn), Hneg. cbn [bind].
  rewrite (pow_pos_value x n Hv Hn). cbn [bind].
  rewrite mul_elem_value by (cbn [a p]; lia). cbn [a p].
  rewrite Z.mul_comm, pow_inverse_one by (assumption || lia). reflexivity.
Qed.

Lemma pow_neg_cancel_witness :
  (valid (FieldElement 2 9) /\ a (FieldElement 2 9) <> 0
   /\ Z.coprime (a (FieldElement 2 9)) (p (FieldElement 2 9)) /\ 0 < 3)
  /\ (r <- pow (FieldElement 2 9) (Int (- 3)) ;;
      s <- pow (FieldElement 2 9) (Int 3) ;; mul r (Elem s))
     = Ok (FieldElement 1 9).
Proof.
  assert (Hv : valid (FieldElement 2 9)) by (unfold valid; cbn; lia).
  assert (Hnz : a (FieldElement 2 9) <> 0) by (cbn; lia).
  assert (Hco : Z.coprime (a (FieldElement 2 9)) (p (FieldElement 2 9)))
    by reflexivity.
  assert (Hn : 0 < 3) by lia.
  split; [exact (conj Hv (conj Hnz (conj Hco Hn))) | ].
  exact (pow_neg_cancel (FieldElement 2 9) 3 Hv Hnz Hco Hn).
Defined.

(** X15. Fermat's little theorem on the operators: over a prime modulus
    [p], a live instance with a non-zero residue has the power [p - 1] equal to
    the one of the field, and the power [p - 2] equal to its [inverse], the
    element the extended Euclidean algorithm gives. *)
Theorem fermat_pow (x : PrimeFieldElement)
  (Hv : valid x) (Hnz : a x <> 0) (Hprime : Z.prime (p x)) :
  pow x (Int (p x - 1)) = Ok (FieldElement 1 (p x))
  /\ pow x (Int (p x - 2)) = inverse x.
Proof.
  pose proof Hv as Hr. unfold valid in Hr.
  pose proof (Z.prime_ge_2 _ Hprime) as Hp2.
  assert (Hfermat : a x ^ (p x - 1) mod p x = 1).
  { apply Z.fermat_nz; [exact Hprime | ]. rewrite Z.mod_small by exact Hr.
    exact Hnz. }
  destruct (inverse_coprime x Hv ltac:(lia) (prime_coprime x Hv Hnz Hprime))
    as [Hinv Hone].
  split.
  - rewrite pow_pos_value by (assumption || lia). rewrite Hfermat. reflexivity.
  - rewrite Hinv. destruct (Z.eq_dec (p x) 2) as [H2 | Hn2].
    + rewrite H2 in *. rewrite pow_zero by reflexivity. rewrite H2.
      rewrite init_ok by lia. do 2 f_equal.
      apply (inverse_unique (a x) _ _ 2);
        [lia | apply Z.mod_pos_bound; lia | | exact Hone].
      replace (a x) with 1 by lia. reflexivity.
    + rewrite pow_pos_value by (assumption || lia). do 2 f_equal.
      apply (inverse_unique (a x) _ _ (p x)).
      * apply Z.mod_pos_bound. lia.
      * apply Z.mod_pos_bound. lia.
      * rewrite Z.mul_mod_idemp_r by lia.
        rewrite <- Z.pow_succ_r by lia.
        replace (Z.succ (p x - 2)) with (p x - 1) by lia. exact Hfermat.
      * exact Hone.
Qed.

Lemma fermat_pow_witness :
  (valid (FieldElement 3 7) /\ a (FieldElement 3 7) <> 0
   /\ Z.prime (p (FieldElement 3 7)))
  /\ pow (FieldElement 3 7) (Int 6) = Ok (FieldElement 1 7)
  /\ pow (FieldElement 3 7) (Int 5) = inverse (FieldElement 3 7).
Proof.
  assert (Hv : valid (FieldElement 3 7)) by (unfold valid; cbn; lia).
  assert (Hnz : a (FieldElement 3 7) <> 0) by (cbn; lia).
  split; [exact (conj Hv (conj Hnz prime_7)) | ].
  exact (fermat_pow (FieldElement 3 7) Hv Hnz prime_7).
Defined.

(** ** The helper on all integers *)

Section EuclidSigns.

(** The first component has the sign of the first argument. *)
Lemma gcdExtended_sign (a b : Z) :
  (0 < a -> 0 < fst (fst (gcdExtended a b)))
  /\ (a < 0 -> fst (fst (gcdExtended a b)) < 0).
Proof.
  revert a b. apply euclid_ind.
  - intros b. split; lia.
  - intros a b Hnz [IHpos IHneg]. rewrite gcdExtended_step by exact Hnz.
    destruct (Z.eq_dec (b mod a) 0) as [Hz | Hmnz].
    + rewrite Hz, gcdExtended_base. cbn [fst]. split; intros; assumption.
    + pose proof (Z.mod_pos_bound b a) as Hpb.
      pose proof (Z.mod_neg_bound b a) as Hnb.
      destruct (gcdExtended (b mod a) a) as [[g x1] y1]. cbn [fst] in *.
      split; intros Ha; [apply IHpos | apply IHneg]; lia.
Qed.

End EuclidSigns.

(** X16. On all integers, negative ones included, the helper returns a
    triple [(gcd, x, y)] with [gcd = a * x + b * y]; [gcd] is the greatest
    common divisor up to its sign, which is the sign of [a]: the gcd itself
    for a positive [a], its opposite for a negative [a], and [b] for [a = 0]. *)
Theorem gcdExtended_integers (a b : Z) :
  let '(gcd, x, y) := gcdExtended a b in
  gcd = a * x + b * y
  /\ Z.abs gcd = Z.gcd a b
  /\ (0 < a -> gcd = Z.gcd a b)
  /\ (a < 0 -> gcd = - Z.gcd a b)
  /\ (a = 0 -> gcd = b).
Proof.
  pose proof (gcdExtended_bezout a b) as Hbez.
  pose proof (gcdExtended_abs_gcd a b) as Habs.
  pose proof (gcdExtended_sign a b) as [Hpos Hneg].
  pose proof (gcdExtended_base b) as Hbase.
  destruct (gcdExtended a b) as [[g x] y] eqn:Hg. cbn [fst] in *.
  split; [exact Hbez | ]. split; [exact Habs | ].
  split; [intros Ha; specialize (Hpos Ha); lia | ].
  split; [intros Ha; specialize (Hneg Ha); lia | ].
  intros ->. rewrite Hbase in Hg. congruence.
Qed.

Example ex_gcdExtended_negative :
  gcdExtended (-3) 7 = (-1, -2, -1) /\ gcdExtended 3 (-7) = (1, -2, -1)
  /\ gcdExtended 0 (-7) = (-7, 0, 1).
Proof. repeat split. Qed.

(** ** Display *)

Section Display.

Lemma to_int_nonnil (z : Z) :
  Z.to_int z <> Decimal.Pos Decimal.Nil /\ Z.to_int z <> Decimal.Neg Decimal.Nil.
Proof.
  destruct z as [ | q | q]; cbn; split; try discriminate.
  - intros [= Hq]. exact (Unsigned.to_uint_nonnil q Hq).
  - intros [= Hq]. exact (Unsigned.to_uint_nonnil q Hq).
Qed.

(** The decimal text of an integer reads back as the integer. *)
Lemma str_parse (z : Z) :
  option_map Z.of_int (NilZero.int_of_string (str z)) = Some z.
Proof.
  unfold str. destruct (to_int_nonnil z) as [Hp Hn].
  rewrite NilZero.isi by assumption. cbn [option_map].
  rewrite DecimalZ.of_to. reflexivity.
Qed.

End Display.

(** X17. [__repr__] shows the residue and nothing of the modulus: the text
    reads back as the residue, so two instances have the same text exactly
    when they have the same residue, whatever their moduli. *)
Theorem repr_residue (x y : PrimeFieldElement) :
  option_map Z.of_int (NilZero.int_of_string (repr x)) = Some (a x)
  /\ (repr x = repr y <-> a x = a y).
Proof.
  split; [apply str_parse | ]. unfold repr. split.
  - intros Heq. pose proof (str_parse (a x)) as Hx.
    rewrite Heq, str_parse in Hx. congruence.
  - intros ->. reflexivity.
Qed.

Example ex_repr :
  repr (FieldElement 5 7) = "5" /\ repr (FieldElement 5 11) = "5"
  /\ repr (FieldElement 0 7) = "0" /\ repr (FieldElement 12 13) = "12".
Proof. repeat split. Qed.

(** ** When division returns *)

(** X18. Between live instances over one modulus, [truediv] returns exactly
    when the divisor is a unit, that is when its residue is prime to a modulus
    greater than [1]; a divisor with a non-zero residue that is no unit makes
    it raise the [ValueError] of line 155, and the integer [0] as divisor
    makes it raise [ZeroDivisionError]. *)
Theorem truediv_returns_iff (x y : PrimeFieldElement)
  (Hx : valid x) (Hy : valid y) (Hp : p y = p x) :
  ((exists q, truediv x (Elem y) = Ok q)
   <-> Z.coprime (a y) (p x) /\ 1 < p x)
  /\ (a y <> 0 -> ~ Z.coprime (a y) (p x) ->
      truediv x (Elem y)
      = Raise (ValueError "The Euclidean algorithm didn't work with this element"))
  /\ truediv x (Int 0)
     = Raise (ZeroDivisionError ("Cannot divide by zero in PrimeField "
                                 ++ str (p x))).
Proof.
  pose proof Hx as Hrx. pose proof Hy as Hry. unfold valid in Hrx, Hry.
  split; [split | split].
  - intros [q Hq]. rewrite truediv_equation_2 in Hq.
    destruct (negb (p x =? p y)); [discriminate | ].
    destruct (a y =? 0); [discriminate | ].
    destruct (inverse y) as [i | e] eqn:Hinv; [ | discriminate].
    destruct (inverse_ok_product y i Hinv) as (Hp1 & _ & _ & Hone).
    rewrite Hp in Hp1, Hone. split; [ | exact Hp1].
    apply (coprime_of_product (a i)). rewrite Z.mul_comm. exact Hone.
  - intros [Hco Hp1]. eexists.
    apply (truediv_unit x y); (assumption || lia).
  - intros Hnz Hnco.
    rewrite truediv_equation_2, Hp, Z.eqb_refl. cbn [negb].
    destruct (Z.eqb_spec (a y) 0) as [ | _]; [contradiction | ].
    rewrite inverse_unfold, (egcd_gcd y Hy), Hp.
    destruct (Z.eqb_spec (Z.gcd (a y) (p x)) (p x)) as [Hgp | _].
    + rewrite <- Hp in Hgp. apply (gcd_modulus_iff y Hy) in Hgp. contradiction.
    + destruct (Z.eqb_spec (Z.gcd (a y) (p x)) 1); [contradiction | reflexivity].
  - rewrite truediv_equation_1, in_range by lia.
    rewrite init_ok by lia. cbn [bind].
    rewrite truediv_equation_2. cbn [a p]. rewrite Z.eqb_refl. reflexivity.
Qed.

Lemma truediv_returns_iff_witness :
  (valid (FieldElement 5 6) /\ valid (FieldElement 4 6)
   /\ p (FieldElement 4 6) = p (FieldElement 5 6))
  /\ truediv (FieldElement 5 6) (Elem (FieldElement 4 6))
     = Raise (ValueError "The Euclidean algorithm didn't work with this element")
  /\ truediv (FieldElement 5 6) (Int 0)
     = Raise (ZeroDivisionError "Cannot divide by zero in PrimeField 6").
Proof.
  assert (Hx : valid (FieldElement 5 6)) by (unfold valid; cbn; lia).
  assert (Hy : valid (FieldElement 4 6)) by (unfold valid; cbn; lia).
  pose proof (truediv_returns_iff (FieldElement 5 6) (FieldElement 4 6)
                Hx Hy eq_refl) as (_ & Hraise & Hzero).
  split; [exact (conj Hx (conj Hy eq_refl)) | ].
  split; [ | exact Hzero].
  apply Hraise; [cbn; lia | vm_compute; discriminate].
Defined.
